(** * geodeconstructor: chronological path segmentation and reverse geocoding

    A shallow embedding of the core of the [geodeconstructor] package:

    - [geodeconstructor/history/locations.py]: the chronological filter
      ([iter_chronologically]) and the path segmenter
      ([iter_unique_path_by_attribute]);
    - [geodeconstructor/reverse_geocode/__init__.py]: the gazetteer
      ([GeocodeData], [query], [reverse_coordinates]) and its singleton;
    - [geodeconstructor/components.py]: [Coordinate] and its [reverse],
      with the local gazetteer and from the address of the remote geocoder;
    - [_run.py]: the filter between two dates ([_new_filter]) and the run
      it is given to.

    Conventions.  A Python [dict] with string keys is a [gmap string _]; a
    Python [list] is a [list] indexed with [!!]; an exception is a value of
    [exn] carried by [result]; a generator is the list of the tuples it
    yields together with the exception that ended it, if any.  Python floats
    holding degrees are idealised as rationals ([Q]); no statement below
    depends on rounding. *)

From Stdlib Require Import ZArith QArith Lia Lqa Permutation Sorted.
From Stdlib Require Import Ascii String.
From stdpp Require Import base option list strings gmap.

Local Open Scope string_scope.
Local Open Scope list_scope.
Local Open Scope Z_scope.

(** ** Python values, exceptions and results *)

(** The exceptions the modelled code can end with. *)
Inductive exn : Set :=
| IndexError
| KeyError
| TypeError
| ValueError.

(** The outcome of evaluating a Python expression: a value or a raised
    exception. *)
Inductive result (A : Type) : Type :=
| Ok (a : A)
| Raise (e : exn).
Arguments Ok {A} a.
Arguments Raise {A} e.

Definition bind {A B : Type} (r : result A) (k : A -> result B) : result B :=
  match r with
  | Ok a => k a
  | Raise e => Raise e
  end.

Notation "x <- r ;; k" := (bind r (fun x => k))
  (at level 100, r at next level, right associativity, only parsing).

(** The JSON scalars a location item carries: [timestampMs] is a string or an
    int, [latitudeE7] and [longitudeE7] are ints. *)
Inductive pyval : Set :=
| PInt (z : Z)
| PStr (s : string).

(** A location item of [Location History.json]. *)
Abbreviation item := (gmap string pyval).

(** [d[k]]: a missing key raises [KeyError]. *)
Definition getitem {V : Type} (d : gmap string V) (k : string) : result V :=
  match d !! k with
  | Some v => Ok v
  | None => Raise KeyError
  end.

(** [l[i]] for a non-negative index: out of range raises [IndexError]. *)
Definition index_list {A : Type} (l : list A) (i : nat) : result A :=
  match l !! i with
  | Some x => Ok x
  | None => Raise IndexError
  end.

(** *** [int(...)] on an int or a string *)

(** The white space [int] skips around an ASCII literal: tab, line feed,
    vertical tab, form feed, carriage return and space. *)
Definition is_space (c : ascii) : bool :=
  let n := nat_of_ascii c in
  ((9 <=? n) && (n <=? 13) || (n =? 32))%nat.

Definition digit_of (c : ascii) : option Z :=
  let n := Z.of_nat (nat_of_ascii c) in
  if (48 <=? n) && (n <=? 57) then Some (n - 48) else None.

Fixpoint lstrip (s : string) : string :=
  match s with
  | String c s' => if is_space c then lstrip s' else s
  | EmptyString => s
  end.

(** Digits with single underscores between them, read left to right.
    [acc] is the value so far; [after_digit] tells whether the previous
    character was a digit.  Trailing white space may end the literal. *)
Fixpoint int_digits (s : string) (acc : Z) (after_digit : bool) : option Z :=
  match s with
  | EmptyString => if after_digit then Some acc else None
  | String c s' =>
      match digit_of c with
      | Some d => int_digits s' (10 * acc + d) true
      | None =>
          if after_digit then
            if Ascii.eqb c "_" then
              match s' with
              | String c' _ =>
                  match digit_of c' with
                  | Some _ => int_digits s' acc false
                  | None => None
                  end
              | EmptyString => None
              end
            else if is_space c then
              match lstrip s' with
              | EmptyString => Some acc
              | String _ _ => None
              end
            else None
          else None
      end
  end.

(** [int(s)] for a string of ASCII characters: optional white space,
    optional sign, decimal digits.  Anything else raises [ValueError]. *)
Definition int_of_string (s : string) : result Z :=
  let body :=
    match lstrip s with
    | String "-" s' => option_map Z.opp (int_digits s' 0 false)
    | String "+" s' => int_digits s' 0 false
    | s' => int_digits s' 0 false
    end in
  match body with
  | Some z => Ok z
  | None => Raise ValueError
  end.

Definition py_int (v : pyval) : result Z :=
  match v with
  | PInt z => Ok z
  | PStr s => int_of_string s
  end.

(** ** Ordering of sort keys *)

(** Python's [<] on a type of keys; it may raise. *)
Class PyLt (K : Type) := py_lt : K -> K -> result bool.

(** The value of [item.get("timestampMs")]: [None] when the key is
    missing.  Ints compare numerically, strings lexicographically by code
    point, and every other pair raises [TypeError]. *)
#[export] Instance pyval_key_lt : PyLt (option pyval) := fun a b =>
  match a, b with
  | Some (PInt x), Some (PInt y) => Ok (x <? y)
  | Some (PStr s), Some (PStr t) => Ok (String.ltb s t)
  | _, _ => Raise TypeError
  end.

#[export] Instance Z_lt : PyLt Z := fun a b => Ok (a <? b).

(** ** [sorted(l, key=key_func)]

    CPython's sort is a stable comparison sort that only uses [<] on the
    keys.  Where [<] orders the keys (it never raises on them, is
    asymmetric, and "not greater" is transitive), its result is the one
    stable ascending arrangement, which insertion from the right computes.
    On keys that are ints, strings or [None], a list of two or more keys
    that are not all ints or all strings makes every comparison sort
    compare two keys of different kinds, and the sort ends with
    [TypeError].  The model is used on these inputs only: for a [<] that
    returns without ordering the keys, the arrangement CPython produces
    depends on how it merges runs, and is not the one computed here. *)
Section Sorted.
Context {A K : Type} `{PyLt K}.
Variable key_func : A -> K.

Fixpoint insert_sorted (x : A) (l : list A) : result (list A) :=
  match l with
  | [] => Ok [x]
  | y :: l' =>
      b <- py_lt (key_func y) (key_func x) ;;
      if b then (r <- insert_sorted x l' ;; Ok (y :: r))
      else Ok (x :: y :: l')
  end.

Fixpoint sorted (l : list A) : result (list A) :=
  match l with
  | [] => Ok []
  | x :: l' => s <- sorted l' ;; insert_sorted x s
  end.
End Sorted.

(** ** [geodeconstructor/history/locations.py] *)

(** [item.get("timestampMs", 0) != 0]. *)
Definition _default_filter_func (it : item) : bool :=
  match default (PInt 0) (it !! "timestampMs") with
  | PInt z => negb (z =? 0)
  | PStr _ => true
  end.

(** [item.get("timestampMs")]. *)
Definition _default_key_func (it : item) : option pyval :=
  it !! "timestampMs".

(** [sorted(filter(filter_func, list_object), key=key_func)], for
    predicates that return without raising. *)
Definition iter_chronologically {A K : Type} `{PyLt K}
    (list_object : list A) (filter_func : A -> bool) (key_func : A -> K)
    : result (list A) :=
  sorted key_func (List.filter filter_func list_object).

(** *** [Coordinate] (from [components.py]) *)

Record Coordinate : Set := {
  latitude : Q;
  longitude : Q;
  city : string;
  country : string
}.

(** The attribute the segmenter watches: the module applies
    [iter_unique_path_by_attribute] to ["city"] and to ["country"]. *)
Inductive attribute : Set :=
| attr_city
| attr_country.

Definition getattr (c : Coordinate) (a : attribute) : string :=
  match a with
  | attr_city => city c
  | attr_country => country c
  end.

(** A yielded tuple
    [(previous node, previous timestampMs, next node, next timestampMs)]. *)
Definition event : Set := option Coordinate * option Z * Coordinate * Z.

(** What iterating a generator to its end observes: the tuples yielded, in
    order, and the exception that ended the iteration ([None] when the
    generator returned). *)
Definition outcome : Set := list event * option exn.

(** The local variables of the loop of [iter_unique_path_by_attribute]. *)
Record loop_state : Type := {
  current_coordinate : option Coordinate;
  current_location : option item;
  last_coordinate : Coordinate;
  last_location : item
}.

Section Segmenter.
(** [Coordinate.init_with_georeverse(latitude, longitude)]: the resolution
    strategy ([reverse_coordinates] or the remote geocoder) is chosen when
    [components.py] is imported. *)
Variable init_with_georeverse : Q -> Q -> result Coordinate.

(** [location[k] / 10000000]. *)
Definition degrees (location : item) (k : string) : result Q :=
  v <- getitem location k ;;
  match v with
  | PInt z => Ok (inject_Z z / inject_Z 10000000)%Q
  | PStr _ => Raise TypeError
  end.

(** [int(location["timestampMs"])]. *)
Definition timestamp (location : item) : result Z :=
  v <- getitem location "timestampMs" ;; py_int v.

(** Latitude, longitude, then the resolution of the pair. *)
Definition resolve (location : item) : result Coordinate :=
  lat <- degrees location "latitudeE7" ;;
  lon <- degrees location "longitudeE7" ;;
  init_with_georeverse lat lon.

(** One pass through the body of [for index in range(1, end_index - 1)]:
    the tuple yielded, if any, and the variables after the pass. *)
Definition loop_body (attr : attribute) (locations_chronological : list item)
    (index : nat) (st : loop_state) : result (option event * loop_state) :=
  cur <- match current_coordinate st with
         | None =>
             current_location <- index_list locations_chronological index ;;
             c <- resolve current_location ;;
             Ok (c, Some current_location)
         | Some c => Ok (c, current_location st)
         end ;;
  let '(current_coordinate, _) := cur in
  next_location <- index_list locations_chronological (index + 1) ;;
  next_coordinate <- resolve next_location ;;
  if negb (String.eqb (getattr next_coordinate attr)
                      (getattr current_coordinate attr))
  then
    last_timestamp <- timestamp (last_location st) ;;
    next_timestamp <- timestamp next_location ;;
    Ok (Some (Some current_coordinate, Some last_timestamp,
              next_coordinate, next_timestamp),
        {| current_coordinate := Some next_coordinate;
           current_location := Some next_location;
           last_coordinate := next_coordinate;
           last_location := next_location |})
  else
    Ok (None,
        {| current_coordinate := Some next_coordinate;
           current_location := Some next_location;
           last_coordinate := last_coordinate st;
           last_location := last_location st |}).

(** The loop over the given indices. *)
Fixpoint loop (attr : attribute) (locations_chronological : list item)
    (indices : list nat) (st : loop_state) : outcome :=
  match indices with
  | [] => ([], None)
  | index :: indices' =>
      match loop_body attr locations_chronological index st with
      | Raise e => ([], Some e)
      | Ok (yielded, st') =>
          let '(events, ending) :=
            loop attr locations_chronological indices' st' in
          (match yielded with
           | Some ev => ev :: events
           | None => events
           end, ending)
      end
  end.

(** [range(1, end_index - 1)]. *)
Definition loop_indices (end_index : nat) : list nat :=
  seq 1 (end_index - 2).

(** The statements before the first [yield]. *)
Definition initial (locations_chronological : list item)
    : result (item * Coordinate * Z) :=
  initial_location <- index_list locations_chronological 0 ;;
  initial_latitude <- degrees initial_location "latitudeE7" ;;
  initial_longitude <- degrees initial_location "longitudeE7" ;;
  initial_timestamp <- timestamp initial_location ;;
  initial_coordinate <- init_with_georeverse initial_latitude initial_longitude ;;
  Ok (initial_location, initial_coordinate, initial_timestamp).

(** The generator body once the list is filtered and ordered. *)
Definition unique_path (attr : attribute)
    (locations_chronological : list item) : outcome :=
  match initial locations_chronological with
  | Raise e => ([], Some e)
  | Ok (initial_location, initial_coordinate, initial_timestamp) =>
      let '(events, ending) :=
        loop attr locations_chronological
          (loop_indices (length locations_chronological))
          {| current_coordinate := None;
             current_location := None;
             last_coordinate := initial_coordinate;
             last_location := initial_location |} in
      ((None, None, initial_coordinate, initial_timestamp) :: events, ending)
  end.

Definition iter_unique_path_by_attribute {K : Type} `{PyLt K}
    (attr : attribute) (locations : list item)
    (filter_func : item -> bool) (key_func : item -> K) : outcome :=
  match iter_chronologically locations filter_func key_func with
  | Raise e => ([], Some e)
  | Ok locations_chronological => unique_path attr locations_chronological
  end.

Definition iter_unique_city_path {K : Type} `{PyLt K} :=
  iter_unique_path_by_attribute (K:=K) attr_city.
Definition iter_unique_country_path {K : Type} `{PyLt K} :=
  iter_unique_path_by_attribute (K:=K) attr_country.
End Segmenter.

(** ** [geodeconstructor/reverse_geocode/__init__.py] *)

Module reverse_geocode.

(** A stored location: a [dict] with keys ["country_code"] and ["city"],
    and ["country"] once a query has looked it up. *)
Abbreviation location := (gmap string string).

(** The second component of [tree.query(coordinates, k=1)]: a bare [int]
    or an array of indices. *)
Inductive neighbours : Set :=
| int_index (index : nat)
| index_array (indices : list nat).

(** The spatial index, an object of the SciPy library: only its [query]
    method is used.  A query point is the list of its components. *)
Record KDTree : Type := {
  kd_query : list (list Q) -> result neighbours
}.

Record GeocodeData : Type := {
  tree : KDTree;
  locations : list location;
  countries : gmap string string
}.

(** A row of [geocode.csv]: latitude, longitude, country code, city. *)
Definition row : Type := Q * Q * string * string.

(** The tail of [extract]: the coordinates and the locations of the rows. *)
Definition extract (rows : list row) : list (Q * Q) * list location :=
  (map (fun r : row => let '(latitude, longitude, _, _) := r in
                       (latitude, longitude)) rows,
   map (fun r : row => let '(_, _, country_code, city) := r in
                       <["country_code" := country_code]>
                         (<["city" := city]> (∅ : location))) rows).

(** [load_countries]: [self.countries[code] = name] for each row. *)
Definition load_countries (country_rows : list (string * string))
    (countries : gmap string string) : gmap string string :=
  foldl (fun m cn => <[cn.1 := cn.2]> m) countries country_rows.

(** [for result in results: result['country'] = ...], on the stored
    locations the results refer to.  The loop stops at the first
    exception, keeping what it has written. *)
Fixpoint set_countries (countries : gmap string string)
    (indices : list nat) (locations : list location)
    : result unit * list location :=
  match indices with
  | [] => (Ok tt, locations)
  | index :: indices' =>
      match locations !! index with
      | None => (Raise IndexError, locations)
      | Some result =>
          match result !! "country_code" with
          | None => (Raise KeyError, locations)
          | Some code =>
              set_countries countries indices'
                (<[index := <["country" := default "" (countries !! code)]>
                              result]> locations)
          end
      end
  end.

(** [GeocodeData.query]: the answer and the gazetteer after the call.
    [results] holds references to the stored locations, which the loop
    updates in place. *)
Definition query (self : GeocodeData) (coordinates : list (list Q))
    : result (list location) * GeocodeData :=
  match kd_query (tree self) coordinates with
  | Raise _ => (Raise ValueError, self)
  | Ok (int_index _) => (Ok [∅], self)
  | Ok (index_array indices) =>
      match mapM (fun index => locations self !! index) indices with
      | None => (Raise IndexError, self)
      | Some _ =>
          let '(r, locations') :=
            set_countries (countries self) indices (locations self) in
          let self' := {| tree := tree self;
                          locations := locations';
                          countries := countries self |} in
          (_ <- r ;;
           match mapM (fun index => locations' !! index) indices with
           | Some results => Ok results
           | None => Raise IndexError
           end, self')
      end
  end.

Section Gazetteer.
(** [KDTree(coordinates)], SciPy's constructor. *)
Variable KDTree_new : list (Q * Q) -> KDTree.
(** The contents of [geocode.csv] and of [countries.csv]. *)
Variable geocode_rows : list row.
Variable country_rows : list (string * string).

(** [GeocodeData.__init__] when it returns: the two files have been read
    (their rows are the variables above) and SciPy has built the index. *)
Definition GeocodeData_init : GeocodeData :=
  let '(coordinates, locations) := extract geocode_rows in
  {| tree := KDTree_new coordinates;
     locations := locations;
     countries := load_countries country_rows ∅ |}.

(** [Singleton.__call__] on the class attribute [_instance], for a
    construction that returns: the instance returned and the attribute
    afterwards.  [Singleton_call_raising] below is the call for a
    construction that may raise. *)
Definition Singleton_call (_instance : option GeocodeData)
    : GeocodeData * option GeocodeData :=
  match _instance with
  | Some gd => (gd, Some gd)
  | None => (GeocodeData_init, Some GeocodeData_init)
  end.

(** [reverse_coordinates(coordinate)]: [gd.query([coordinate])[0]]. *)
Definition reverse_coordinates (coordinate : Q * Q)
    (_instance : option GeocodeData)
    : result location * option GeocodeData :=
  let '(gd, _) := Singleton_call _instance in
  let '(r, gd') := query gd [[coordinate.1; coordinate.2]] in
  (results <- r ;; index_list results 0, Some gd').

(** [search(coordinates)]. *)
Definition search (coordinates : list (Q * Q))
    (_instance : option GeocodeData)
    : result (list location) * option GeocodeData :=
  let '(gd, _) := Singleton_call _instance in
  let '(r, gd') := query gd (map (fun c => [c.1; c.2]) coordinates) in
  (r, Some gd').

(** [Coordinate.init_with_georeverse] when [reverse] uses the local
    gazetteer. *)
Definition init_with_georeverse (latitude longitude : Q)
    (_instance : option GeocodeData)
    : result Coordinate * option GeocodeData :=
  let '(r, _instance') :=
    reverse_coordinates (latitude, longitude) _instance in
  (location <- r ;;
   country <- getitem location "country" ;;
   city <- getitem location "city" ;;
   Ok {| latitude := latitude; longitude := longitude;
         city := city; country := country |},
   _instance').
End Gazetteer.

(** [Singleton.__call__] for any class and a construction that may raise:
    [construct] is the outcome of the call of [super().__call__], which
    is evaluated only when [_instance] is [None]: [inl instance] when it
    returns, [inr e] when it raises [e], whatever the exception (a file
    that cannot be read, a download that fails, an error of SciPy).  An
    exception leaves the assignment undone, so [_instance] stays [None] and
    the next call constructs again. *)
Definition Singleton_call_raising {T E : Type} (construct : T + E)
    (_instance : option T) : (T + E) * option T :=
  match _instance with
  | Some instance => (inl instance, Some instance)
  | None =>
      match construct with
      | inl instance => (inl instance, Some instance)
      | inr e => (inr e, None)
      end
  end.

(** *** The nearest-neighbour index *)

(** Squared Euclidean distance over raw degrees. *)
Definition dist2 (p x : Q * Q) : Q :=
  ((p.1 - x.1) * (p.1 - x.1) + (p.2 - x.2) * (p.2 - x.2))%Q.

(** The first index, from [i] on, of a point of [data] nearest to [x],
    given the best index and distance so far. *)
Fixpoint nearest_from (x : Q * Q) (data : list (Q * Q)) (i : nat)
    (best : nat * Q) : nat :=
  match data with
  | [] => best.1
  | p :: data' =>
      nearest_from x data' (S i)
        (if Qlt_le_dec (dist2 p x) best.2 then (i, dist2 p x) else best)
  end.

Definition nearest (data : list (Q * Q)) (x : Q * Q) : option nat :=
  match data with
  | [] => None
  | p :: data' => Some (nearest_from x data' 1%nat (0%nat, dist2 p x))
  end.

Definition as_point (x : list Q) : option (Q * Q) :=
  match x with
  | [a; b] => Some (a, b)
  | _ => None
  end.

(** Modelled from the spec: the SciPy index behind [self.tree], which is
    not part of the repository.  For each query point it answers with the
    index of the single nearest reference point, by Euclidean distance
    over raw degrees; a query that is not a non-empty sequence of
    two-component points has the wrong shape and fails. *)
Definition cKDTree (data : list (Q * Q)) : KDTree :=
  {| kd_query := fun coordinates =>
       match coordinates with
       | [] => Raise ValueError
       | _ :: _ =>
           match mapM as_point coordinates with
           | None => Raise ValueError
           | Some points =>
               match mapM (nearest data) points with
               | None => Raise ValueError
               | Some indices => Ok (index_array indices)
               end
           end
       end |}.

(** *** Vocabulary for the properties *)

(** The coordinates [extract] hands to the index for a row. *)
Definition row_coordinates (r : row) : Q * Q :=
  let '(latitude, longitude, _, _) := r in (latitude, longitude).

(** The location [extract] stores for a row. *)
Definition base_location (r : row) : location :=
  let '(_, _, country_code, city) := r in
  <["country_code" := country_code]> (<["city" := city]> (∅ : location)).

(** A stored location after [query] has written its ["country"]: the name
    the table gives for its country code, [""] when it gives none. *)
Definition with_country (countries : gmap string string) (loc : location)
    : location :=
  match loc !! "country_code" with
  | Some code => <["country" := default "" (countries !! code)]> loc
  | None => loc
  end.

(** [gd] is the gazetteer built from the rows, as first built or after
    any number of queries. *)
Definition gazetteer_of (KDTree_new : list (Q * Q) -> KDTree)
    (geocode_rows : list row) (country_rows : list (string * string))
    (gd : GeocodeData) : Prop :=
  tree gd = KDTree_new (extract geocode_rows).1
  /\ countries gd = load_countries country_rows ∅
  /\ Forall2 (fun r loc => loc = base_location r
                           \/ loc = with_country (countries gd)
                                      (base_location r))
             geocode_rows (locations gd).

(** What the gazetteer relies on from the index: asked for the neighbour
    of one point, it answers with an array holding the index of a
    reference point that no other reference point is nearer than. *)
Definition nearest_neighbour (KDTree_new : list (Q * Q) -> KDTree) : Prop :=
  forall (data : list (Q * Q)) (x : Q * Q), data <> [] ->
    exists i p,
      kd_query (KDTree_new data) [[x.1; x.2]] = Ok (index_array [i])
      /\ data !! i = Some p
      /\ forall q, q ∈ data -> (dist2 p x <= dist2 q x)%Q.

(** An index whose search fails on every query. *)
Definition failing_index : KDTree :=
  {| kd_query := fun _ => Raise TypeError |}.

(** *** Sample gazetteers *)

Definition origin_rows : list row := [(0%Q, 0%Q, "XX", "Origin")].
Definition origin_countries : list (string * string) :=
  [("XX", "Originland")].
Definition origin_gazetteer : GeocodeData :=
  GeocodeData_init cKDTree origin_rows origin_countries.

(** Two reference entries with the same coordinates. *)
Definition twin_rows : list row :=
  [(0%Q, 0%Q, "XX", "Origin"); (0%Q, 0%Q, "XX", "Twin")].

End reverse_geocode.

(** * Specification vocabulary *)

Section Ordering.
Context {A K : Type} `{PyLt K}.
Variable key_func : A -> K.

(** [a] may stand before [b]: [key_func b < key_func a] is false. *)
Definition key_le (a b : A) : Prop :=
  py_lt (key_func b) (key_func a) = Ok false.

(** [<] orders the keys of the elements that satisfy [P]: it never raises
    on them, it is asymmetric, and "not greater" is transitive. *)
Record orders (P : A -> Prop) : Prop := {
  orders_total : forall a b, P a -> P b ->
    exists c, py_lt (key_func a) (key_func b) = Ok c;
  orders_asym : forall a b, P a -> P b ->
    py_lt (key_func a) (key_func b) = Ok true -> key_le a b;
  orders_trans : forall a b c, P a -> P b -> P c ->
    key_le a b -> key_le b c -> key_le a c
}.
End Ordering.

(** The items whose [timestampMs] is an int. *)
Definition int_timestamp (it : item) : Prop :=
  exists z, it !! "timestampMs" = Some (PInt z).

(** The items whose [timestampMs] is a string. *)
Definition str_timestamp (it : item) : Prop :=
  exists s, it !! "timestampMs" = Some (PStr s).

(** The components of a yielded tuple. *)
Definition previous_node (ev : event) : option Coordinate := ev.1.1.1.
Definition previous_timestamp (ev : event) : option Z := ev.1.1.2.
Definition next_node (ev : event) : Coordinate := ev.1.2.
Definition next_timestamp (ev : event) : Z := ev.2.

(** The timestamps of a sequence of yielded tuples, in the order they are
    yielded: for each tuple the previous timestamp, when there is one, then
    the next timestamp. *)
Fixpoint event_timestamps (events : list event) : list Z :=
  match events with
  | [] => []
  | ev :: events' =>
      match previous_timestamp ev with
      | Some t => t :: next_timestamp ev :: event_timestamps events'
      | None => next_timestamp ev :: event_timestamps events'
      end
  end.

(** Change detection over resolved samples: [current] is the place the
    next sample is compared with, [entry] the timestamp reported as the
    start of the open segment.  Every sample becomes [current] once it has
    been compared; a tuple is produced where the watched attribute
    changes. *)
Fixpoint transitions (attr : attribute) (current : Coordinate) (entry : Z)
    (samples : list (Coordinate * Z)) : list event :=
  match samples with
  | [] => []
  | (next, t) :: samples' =>
      if negb (String.eqb (getattr next attr) (getattr current attr))
      then (Some current, Some entry, next, t)
             :: transitions attr next t samples'
      else transitions attr next entry samples'
  end.

(** The segmentation as the specification words it: the initial tuple for
    the first sample, then change detection with the first sample's place
    and timestamp as the starting [current] and [entry]. *)
Definition spec_unique_path (attr : attribute)
    (samples : list (Coordinate * Z)) : list event :=
  match samples with
  | [] => []
  | (first, t) :: samples' =>
      (None, None, first, t) :: transitions attr first t samples'
  end.

(** What the loop of [iter_unique_path_by_attribute] computes on resolved
    samples: the initial tuple for the first sample, then change detection
    that starts with the second sample's place as [current] and the first
    sample's timestamp as [entry]. *)
Definition code_unique_path (attr : attribute)
    (samples : list (Coordinate * Z)) : list event :=
  match samples with
  | [] => []
  | (first, t) :: samples' =>
      (None, None, first, t)
        :: match samples' with
           | [] => []
           | (second, _) :: samples'' => transitions attr second t samples''
           end
  end.

(** * Sample data *)

(** A location item with the three keys the segmenter reads. *)
Definition sample (timestampMs : pyval) (latitudeE7 longitudeE7 : Z) : item :=
  <["timestampMs" := timestampMs]>
    (<["latitudeE7" := PInt latitudeE7]>
       (<["longitudeE7" := PInt longitudeE7]> ∅)).

(** The resolution strategy of the local gazetteer as a function of the
    coordinates: the answer [init_with_georeverse] gives on first use. *)
Definition gazetteer_resolver (geocode_rows : list reverse_geocode.row)
    (country_rows : list (string * string)) (latitude longitude : Q)
    : result Coordinate :=
  (reverse_geocode.init_with_georeverse reverse_geocode.cKDTree
     geocode_rows country_rows latitude longitude None).1.

(** A gazetteer of two cities, and places near each of them. *)
Definition two_cities : list reverse_geocode.row :=
  [(38%Q, (-97)%Q, "US", "Wichita"); (47%Q, 2%Q, "FR", "Bourges")].
Definition two_countries : list (string * string) :=
  [("US", "US"); ("FR", "FR")].
Definition near_two_cities : Q -> Q -> result Coordinate :=
  gazetteer_resolver two_cities two_countries.

Definition in_US (timestampMs : pyval) : item :=
  sample timestampMs 380000000 (-970000000).
Definition in_FR (timestampMs : pyval) : item :=
  sample timestampMs 470000000 20000000.
Definition place_US : Coordinate :=
  {| latitude := (inject_Z 380000000 / inject_Z 10000000)%Q;
     longitude := (inject_Z (-970000000) / inject_Z 10000000)%Q;
     city := "Wichita"; country := "US" |}.
Definition place_FR : Coordinate :=
  {| latitude := (inject_Z 470000000 / inject_Z 10000000)%Q;
     longitude := (inject_Z 20000000 / inject_Z 10000000)%Q;
     city := "Bourges"; country := "FR" |}.

(** The same two cities under a table that does not list the code of the
    second: places near it resolve to the empty country. *)
Definition one_country : list (string * string) := [("US", "US")].
Definition near_unlisted : Q -> Q -> result Coordinate :=
  gazetteer_resolver two_cities one_country.
Definition place_unlisted : Coordinate :=
  {| latitude := (inject_Z 470000000 / inject_Z 10000000)%Q;
     longitude := (inject_Z 20000000 / inject_Z 10000000)%Q;
     city := "Bourges"; country := "" |}.

(** * Timestamps that sort in numeric order *)

Definition is_digit (c : ascii) : bool :=
  match digit_of c with
  | Some _ => true
  | None => false
  end.

Fixpoint all_digits (s : string) : bool :=
  match s with
  | EmptyString => true
  | String c s' => is_digit c && all_digits s'
  end.

(** The number a string of decimal digits denotes, after the digits [acc]. *)
Fixpoint digits_value (s : string) (acc : Z) : Z :=
  match s with
  | EmptyString => acc
  | String c s' => digits_value s' (10 * acc + default 0 (digit_of c))
  end.

(** The items whose [timestampMs] is a string of exactly [n] decimal
    digits, [n > 0]. *)
Definition digits_timestamp (n : nat) (it : item) : Prop :=
  exists s, it !! "timestampMs" = Some (PStr s)
            /\ String.length s = n /\ (0 < n)%nat /\ all_digits s = true.

(** The timestamps are all ints, or all strings of decimal digits of one
    length. *)
Definition same_kind_timestamps (l : list item) : Prop :=
  Forall int_timestamp l \/ exists n, Forall (digits_timestamp n) l.

(** On the items that satisfy [P], [int(item["timestampMs"])] is defined
    and [<] on the sort keys is [<] on these numbers. *)
Definition numerically_ordered (P : item -> Prop) : Prop :=
  forall a b, P a -> P b ->
    exists x y, timestamp a = Ok x /\ timestamp b = Ok y
                /\ py_lt (_default_key_func a) (_default_key_func b)
                   = Ok (x <? y).

(** * Vocabulary for the tuples a run yields *)

(** A tuple with a previous node joins two places that differ in the
    watched attribute. *)
Definition changes_attribute (attr : attribute) (ev : event) : Prop :=
  match previous_node ev with
  | Some previous => getattr previous attr <> getattr (next_node ev) attr
  | None => True
  end.

(** Every tuple carries, as its previous timestamp, the next timestamp of
    the tuple before it; [entry] is the one before the first. *)
Fixpoint entries_chain (entry : Z) (events : list event) : Prop :=
  match events with
  | [] => True
  | ev :: events' =>
      previous_timestamp ev = Some entry
      /\ entries_chain (next_timestamp ev) events'
  end.

(** Equality of the JSON scalars is decidable. *)
#[export] Instance pyval_eq_dec : EqDecision pyval.
Proof. solve_decision. Defined.

(** * [extract]: the compact rows derived from the dataset *)

(** A row of the compact file as text: latitude, longitude, country code,
    city. *)
Definition text_row : Type := string * string * string * string.

(** Truth of a string: it is not empty. *)
Definition nonempty (s : string) : bool :=
  match s with
  | EmptyString => false
  | String _ _ => true
  end.

(** One pass through the body of the loop over [cities1000.txt]: the row
    appended to [rows] (and written to the compact file), if any.
    [latitude, longitude = row[4:6]] needs two fields there, [row[8]] a
    ninth field. *)
Definition compact_row (row : list string) : result (option text_row) :=
  match take 2 (drop 4 row) with
  | [latitude; longitude] =>
      country_code <- index_list row 8 ;;
      if nonempty latitude && nonempty longitude && nonempty country_code
      then city <- index_list row 1 ;;
           Ok (Some (latitude, longitude, country_code, city))
      else Ok None
  | _ => Raise ValueError
  end.

(** The loop: the rows appended, up to the first exception. *)
Fixpoint compact_rows (dataset : list (list string)) : result (list text_row) :=
  match dataset with
  | [] => Ok []
  | row :: dataset' =>
      kept <- compact_row row ;;
      rows <- compact_rows dataset' ;;
      Ok (match kept with
          | Some r => r :: rows
          | None => rows
          end)
  end.

(** The row the loop keeps for a dataset row of nine fields or more. *)
Definition compact_of (row : list string) : option text_row :=
  match row !! 4%nat, row !! 5%nat, row !! 8%nat, row !! 1%nat with
  | Some latitude, Some longitude, Some country_code, Some city =>
      if nonempty latitude && nonempty longitude && nonempty country_code
      then Some (latitude, longitude, country_code, city)
      else None
  | _, _, _, _ => None
  end.

(** The tail of [extract] on rows read from the compact file:
    [for latitude, longitude, country_code, city in rows] needs four fields
    in every row. *)
Fixpoint unpack_rows (rows : list (list string)) : result (list text_row) :=
  match rows with
  | [] => Ok []
  | [latitude; longitude; country_code; city] :: rows' =>
      rest <- unpack_rows rows' ;;
      Ok ((latitude, longitude, country_code, city) :: rest)
  | _ :: _ => Raise ValueError
  end.

(** What [csv.writer] leaves in the compact file for the rows appended. *)
Definition written (rows : list text_row) : list (list string) :=
  map (fun r : text_row =>
         let '(latitude, longitude, country_code, city) := r in
         [latitude; longitude; country_code; city]) rows.

(** * Vocabulary for the uses of the gazetteer *)

(** The index answers with positions of its reference points. *)
Definition answers_within
    (KDTree_new : list (Q * Q) -> reverse_geocode.KDTree) : Prop :=
  forall data coordinates indices,
    reverse_geocode.kd_query (KDTree_new data) coordinates
    = Ok (reverse_geocode.index_array indices) ->
    Forall (fun i => (i < length data)%nat) indices.

(** An index whose search answers with a bare [int]. *)
Definition bare_int_index : reverse_geocode.KDTree :=
  {| reverse_geocode.kd_query := fun _ => Ok (reverse_geocode.int_index 0) |}.

(** ** [_run.py]: the run between two dates *)

(** [filter(filter_func, list_object)] read to its end, for a predicate
    that may raise: the items are tested in order, and the first exception
    ends the reading. *)
Fixpoint filter_raising {A : Type} (filter_func : A -> result bool)
    (list_object : list A) : result (list A) :=
  match list_object with
  | [] => Ok []
  | x :: l =>
      keep <- filter_func x ;;
      kept <- filter_raising filter_func l ;;
      Ok (if keep then x :: kept else kept)
  end.

(** [iter_chronologically] for a predicate that may raise: [sorted] reads
    the filter to its end before it compares any key. *)
Definition iter_chronologically_raising {A K : Type} `{PyLt K}
    (list_object : list A) (filter_func : A -> result bool)
    (key_func : A -> K) : result (list A) :=
  kept <- filter_raising filter_func list_object ;;
  sorted key_func kept.

(** [iter_unique_path_by_attribute] for a predicate that may raise. *)
Definition iter_unique_path_by_attribute_raising {K : Type} `{PyLt K}
    (init_with_georeverse : Q -> Q -> result Coordinate)
    (attr : attribute) (locations : list item)
    (filter_func : item -> result bool) (key_func : item -> K) : outcome :=
  match iter_chronologically_raising locations filter_func key_func with
  | Raise e => ([], Some e)
  | Ok locations_chronological =>
      unique_path init_with_georeverse attr locations_chronological
  end.

(** [_new_filter], the predicate [_run.py] builds from [--startdate] and
    [--enddate]; [date1Ms] and [date2Ms] are the two dates in milliseconds,
    floats that Python compares with the [int] exactly. *)
Definition _new_filter (date1Ms date2Ms : Q) (it : item) : result bool :=
  value <- py_int (default (PInt 0) (it !! "timestampMs")) ;;
  if (value =? 0)
     || negb (Qle_bool (inject_Z value) date2Ms)
     || negb (Qle_bool date1Ms (inject_Z value))
  then Ok false
  else Ok true.

(** [generator = iter_unique_country_path(json["locations"], _new_filter)]:
    the key function is the default one. *)
Definition dated_country_path
    (init_with_georeverse : Q -> Q -> result Coordinate)
    (date1Ms date2Ms : Q) (locations : list item) : outcome :=
  iter_unique_path_by_attribute_raising init_with_georeverse attr_country
    locations (_new_filter date1Ms date2Ms) _default_key_func.

(** * Vocabulary for the places a run leaves *)

(** Every tuple with a previous node leaves a place that agrees, in the
    watched attribute, with the place the tuple before it entered;
    [entered] is the place entered before the first. *)
Fixpoint exits_follow_entries (attr : attribute) (entered : Coordinate)
    (events : list event) : Prop :=
  match events with
  | [] => True
  | ev :: events' =>
      match previous_node ev with
      | Some exited => getattr exited attr = getattr entered attr
      | None => True
      end
      /\ exits_follow_entries attr (next_node ev) events'
  end.

(** ** [components.py]: the address the remote geocoder answers *)

(** [s.split(',')]: the parts between the commas, never an empty list. *)
Fixpoint split_comma (s : string) : list string :=
  match s with
  | EmptyString => [EmptyString]
  | String c s' =>
      if Ascii.eqb c "," then EmptyString :: split_comma s'
      else match split_comma s' with
           | part :: parts => String c part :: parts
           | [] => [String c EmptyString]
           end
  end.

Fixpoint lstrip_space (s : string) : string :=
  match s with
  | String c s' => if Ascii.eqb c " " then lstrip_space s' else s
  | EmptyString => s
  end.

Fixpoint rstrip_space (s : string) : string :=
  match s with
  | String c s' =>
      match rstrip_space s' with
      | EmptyString => if Ascii.eqb c " " then EmptyString
                       else String c EmptyString
      | r => String c r
      end
  | EmptyString => s
  end.

(** [x.strip(' ')]. *)
Definition strip_space (x : string) : string :=
  rstrip_space (lstrip_space x).

(** [l[-1]]. *)
Definition index_last {A : Type} (l : list A) : result A :=
  match length l with
  | O => Raise IndexError
  | S n => index_list l n
  end.

(** The geopy branch of [Coordinate.reverse] once the geocoder has
    answered with [address]: the values given to [self.country] and
    [self.city], the latter a list of strings. *)
Definition reverse_address (address : string)
    : result (string * list string) :=
  let location_split := map strip_space (split_comma address) in
  country <- index_last location_split ;;
  Ok (country, drop 1 (take (length location_split - 2) location_split)).

(** * Vocabulary for addresses *)

Fixpoint no_comma (s : string) : bool :=
  match s with
  | EmptyString => true
  | String c s' => negb (Ascii.eqb c ",") && no_comma s'
  end.

Fixpoint count_commas (s : string) : nat :=
  match s with
  | EmptyString => O
  | String c s' =>
      if Ascii.eqb c "," then S (count_commas s') else count_commas s'
  end.

(** [", ".join(parts)]. *)
Fixpoint joined (parts : list string) : string :=
  match parts with
  | [] => EmptyString
  | [part] => part
  | part :: parts' => part ++ String "," (String " " (joined parts'))
  end.

(** A part as the geocoder writes it: no comma, no space at either end. *)
Definition address_part (part : string) : Prop :=
  no_comma part = true /\ strip_space part = part.

(** * Vocabulary for the run between two dates *)

(** The items whose int [timestampMs] lies between the two dates; an item
    with another [timestampMs], or none, passes. *)
Definition within_dates (date1Ms date2Ms : Q) (it : item) : bool :=
  match it !! "timestampMs" with
  | Some (PInt z) =>
      Qle_bool date1Ms (inject_Z z) && Qle_bool (inject_Z z) date2Ms
  | _ => true
  end.

(** * Properties *)

(** ** [sorted]: a permutation in ascending key order *)

Section SortedFacts.
Context {A K : Type} `{PyLt K}.
Variable key_func : A -> K.
Variable P : A -> Prop.
Hypothesis HP : orders key_func P.

Lemma insert_sorted_ok (x : A) (l : list A) :
  P x -> Forall P l -> StronglySorted (key_le key_func) l ->
  exists out, insert_sorted key_func x l = Ok out
              /\ out ≡ₚ x :: l /\ StronglySorted (key_le key_func) out.
Proof.
  induction l as [|y l IH]; intros Hx Hl Hs.
  - exists [x]. repeat split; repeat constructor.
  - apply Forall_cons in Hl as [Hy Hl].
    apply StronglySorted_inv in Hs as [Hs Hyl].
    destruct (orders_total key_func P HP y x Hy Hx) as [c Hc].
    simpl. rewrite Hc. simpl. destruct c.
    + destruct (IH Hx Hl Hs) as (out & E & Hp & Hso).
      rewrite E. simpl. exists (y :: out). split; [reflexivity|]. split.
      * rewrite Hp. apply perm_swap.
      * constructor; [assumption|].
        apply Forall_forall. intros z Hz. rewrite Hp in Hz.
        apply elem_of_cons in Hz as [->|Hz].
        -- apply (orders_asym key_func P HP); assumption.
        -- rewrite Forall_forall in Hyl. auto.
    + exists (x :: y :: l). split; [reflexivity|]. split; [reflexivity|].
      constructor; [constructor; assumption|].
      constructor; [exact Hc|].
      rewrite Forall_forall in Hyl, Hl |- *. intros z Hz.
      apply (orders_trans key_func P HP x y z); auto.
Qed.

Lemma sorted_ok (l : list A) :
  Forall P l ->
  exists out, sorted key_func l = Ok out
              /\ out ≡ₚ l /\ StronglySorted (key_le key_func) out.
Proof.
  induction l as [|x l IH]; intros Hl.
  - exists []. repeat split; constructor.
  - apply Forall_cons in Hl as [Hx Hl].
    destruct (IH Hl) as (s & E & Hp & Hs).
    simpl. rewrite E. simpl.
    destruct (insert_sorted_ok x s Hx) as (out & E' & Hp' & Hs');
      [rewrite Hp; assumption | assumption |].
    exists out. split; [assumption|]. split; [|assumption].
    rewrite Hp', Hp. reflexivity.
Qed.
End SortedFacts.

Lemma orders_weaken {A K : Type} `{PyLt K} (key_func : A -> K)
    (P Q : A -> Prop) :
  (forall a, Q a -> P a) -> orders key_func P -> orders key_func Q.
Proof.
  intros HQP [Ht Ha Htr]. split.
  - intros a b Qa Qb. apply Ht; auto.
  - intros a b Qa Qb. apply Ha; auto.
  - intros a b c Qa Qb Qc. apply Htr; auto.
Qed.

(** Integer keys are ordered by [<]. *)
Lemma orders_Z {A : Type} (key_func : A -> Z) (P : A -> Prop) :
  orders key_func P.
Proof.
  split; unfold key_le, py_lt, Z_lt.
  - intros a b _ _. eexists. reflexivity.
  - intros a b _ _ Hlt. f_equal. injection Hlt as Hlt.
    apply Z.ltb_lt in Hlt. apply Z.ltb_ge. lia.
  - intros a b c _ _ _ Hab Hbc. f_equal.
    injection Hab as Hab. injection Hbc as Hbc.
    apply Z.ltb_ge in Hab, Hbc. apply Z.ltb_ge. lia.
Qed.

(** [_default_key_func] orders the items whose [timestampMs] is an int. *)
Lemma orders_default_key_int : orders _default_key_func int_timestamp.
Proof.
  split; unfold key_le, _default_key_func, py_lt, pyval_key_lt.
  - intros a b [x Ha] [y Hb]. rewrite Ha, Hb. eexists. reflexivity.
  - intros a b [x Ha] [y Hb]. rewrite Ha, Hb. simpl.
    intros Hlt. f_equal. injection Hlt as Hlt.
    apply Z.ltb_lt in Hlt. apply Z.ltb_ge. lia.
  - intros a b c [x Ha] [y Hb] [z Hc]. rewrite Ha, Hb, Hc. simpl.
    intros Hab Hbc. f_equal.
    injection Hab as Hab. injection Hbc as Hbc.
    apply Z.ltb_ge in Hab, Hbc. apply Z.ltb_ge. lia.
Qed.

Lemma elem_of_List_filter {A : Type} (f : A -> bool) (l : list A) (a : A) :
  a ∈ List.filter f l <-> a ∈ l /\ f a = true.
Proof. rewrite !list_elem_of_In. apply filter_In. Qed.

Lemma iter_chronologically_ok {A K : Type} `{PyLt K} (list_object : list A)
    (filter_func : A -> bool) (key_func : A -> K) (P : A -> Prop) :
  orders key_func P ->
  (forall a, a ∈ list_object -> filter_func a = true -> P a) ->
  exists out,
    iter_chronologically list_object filter_func key_func = Ok out
    /\ out ≡ₚ List.filter filter_func list_object
    /\ StronglySorted (key_le key_func) out.
Proof.
  intros HP Hin. unfold iter_chronologically.
  apply (sorted_ok key_func P HP).
  apply Forall_forall. intros a Ha.
  apply elem_of_List_filter in Ha as [Ha Hf]. auto.
Qed.

(** What [_default_filter_func] rejects. *)
Lemma _default_filter_func_false (it : item) :
  _default_filter_func it = false
  <-> it !! "timestampMs" = None \/ it !! "timestampMs" = Some (PInt 0).
Proof.
  unfold _default_filter_func.
  destruct (it !! "timestampMs") as [[z|s]|]; simpl.
  - rewrite negb_false_iff, Z.eqb_eq. split.
    + intros ->. right. reflexivity.
    + intros [Hn|Hz]; [discriminate | congruence].
  - split; [discriminate | intros [Hn|Hz]; discriminate].
  - split; [left; reflexivity | reflexivity].
Qed.

(** C8 (as amended). Whatever the predicates [filter_func] (keep) and
    [key_func] (sortKey), provided [<] orders the keys of the kept records,
    the chronological filter returns exactly the kept records (as many
    times as they occur in the input), arranged in ascending key order.  An
    empty selection is returned as the empty list, without an exception.
    The default keep predicate rejects exactly the records whose
    [timestampMs] is missing or is the int [0]: a record whose
    [timestampMs] is a string is kept, whatever the string. *)
Theorem iter_chronologically_keeps_and_orders {A K : Type} `{PyLt K}
    (list_object : list A) (filter_func : A -> bool) (key_func : A -> K) :
  orders key_func (fun a => a ∈ list_object /\ filter_func a = true) ->
  (exists out,
      iter_chronologically list_object filter_func key_func = Ok out
      /\ out ≡ₚ List.filter filter_func list_object
      /\ (forall a, a ∈ out <-> a ∈ list_object /\ filter_func a = true)
      /\ StronglySorted (key_le key_func) out)
  /\ (List.filter filter_func list_object = [] ->
      iter_chronologically list_object filter_func key_func = Ok [])
  /\ (forall it : item,
        _default_filter_func it = false
        <-> it !! "timestampMs" = None \/ it !! "timestampMs" = Some (PInt 0))
  /\ (forall (it : item) (s : string),
        it !! "timestampMs" = Some (PStr s) ->
        _default_filter_func it = true).
Proof.
  intros HP. split; [|split; [|split]].
  - destruct (iter_chronologically_ok list_object filter_func key_func _ HP)
      as (out & E & Hp & Hs); [auto|].
    exists out. split; [assumption|]. split; [assumption|].
    split; [|assumption].
    intros a. rewrite Hp. apply elem_of_List_filter.
  - intros E. unfold iter_chronologically. rewrite E. reflexivity.
  - apply _default_filter_func_false.
  - intros it s Hs. unfold _default_filter_func. rewrite Hs. reflexivity.
Qed.

(** Three items, one of them with timestamp 0. *)
Lemma iter_chronologically_keeps_and_orders_witness :
  exists out,
    iter_chronologically
      [in_FR (PInt 300); sample (PInt 0) 0 0; in_US (PInt 100)]
      _default_filter_func _default_key_func
    = Ok out
    /\ out ≡ₚ List.filter _default_filter_func
                [in_FR (PInt 300); sample (PInt 0) 0 0; in_US (PInt 100)]
    /\ (forall a, a ∈ out
                  <-> a ∈ [in_FR (PInt 300); sample (PInt 0) 0 0;
                           in_US (PInt 100)]
                      /\ _default_filter_func a = true)
    /\ StronglySorted (key_le _default_key_func) out.
Proof.
  refine (proj1 (iter_chronologically_keeps_and_orders
                   [in_FR (PInt 300); sample (PInt 0) 0 0; in_US (PInt 100)]
                   _default_filter_func _default_key_func _)).
  apply (orders_weaken _ int_timestamp); [|apply orders_default_key_int].
  intros a [Ha Hf].
  repeat (apply elem_of_cons in Ha as [-> | Ha]).
  - exists 300. reflexivity.
  - vm_compute in Hf. discriminate Hf.
  - exists 100. reflexivity.
  - apply elem_of_nil in Ha. destruct Ha.
Defined.

(** A record whose [timestampMs] is the string ["0"] has the timestamp
    zero, and the default keep predicate keeps it: the chronological filter
    returns it. *)
Lemma iter_chronologically_keeps_and_orders_counterexample :
  timestamp (in_US (PStr "0")) = Ok 0
  /\ _default_filter_func (in_US (PStr "0")) = true
  /\ iter_chronologically [in_US (PStr "0")] _default_filter_func
       _default_key_func
     = Ok [in_US (PStr "0")].
Proof. repeat split; reflexivity. Qed.

(** ** The segmenter *)

Lemma StronglySorted_lookup {A : Type} (R : A -> A -> Prop) (l : list A)
    (i j : nat) (a b : A) :
  StronglySorted R l -> l !! i = Some a -> l !! j = Some b ->
  (i < j)%nat -> R a b.
Proof.
  intros Hs. revert i j. induction Hs as [|x l Hs IH Hx]; intros i j Hi Hj Hij.
  - discriminate.
  - destruct j as [|j]; [lia|]. destruct i as [|i]; simpl in *.
    + injection Hi as <-. rewrite Forall_forall in Hx.
      apply Hx. eapply list_elem_of_lookup_2. exact Hj.
    + apply (IH i j); [assumption | assumption | lia].
Qed.

Section SegmenterFacts.
(** The resolution strategy behind [Coordinate.init_with_georeverse]. *)
Variable geo : Q -> Q -> result Coordinate.

(** *** Before the first [yield] *)

Lemma initial_Ok (locs : list item) (a : item) (c : Coordinate) (t : Z) :
  initial geo locs = Ok (a, c, t)
  <-> locs !! 0%nat = Some a /\ resolve geo a = Ok c /\ timestamp a = Ok t.
Proof.
  unfold initial, resolve, index_list.
  destruct (locs !! 0%nat) as [a'|]; simpl.
  - destruct (degrees a' "latitudeE7") as [lat|] eqn:Hlat; simpl.
    + destruct (degrees a' "longitudeE7") as [lon|] eqn:Hlon; simpl.
      * destruct (timestamp a') as [t'|] eqn:Ht; simpl.
        -- destruct (geo lat lon) as [c'|] eqn:Hc; simpl.
           ++ split.
              ** intros [= -> -> ->]. rewrite Hlat, Hlon. simpl. auto.
              ** intros ([= ->] & Hr & Ht'). rewrite Hlat, Hlon in Hr.
                 simpl in Hr. congruence.
           ++ split; [discriminate|].
              intros ([= ->] & Hr & Ht'). rewrite Hlat, Hlon in Hr.
              simpl in Hr. congruence.
        -- split; [discriminate|].
           intros ([= ->] & Hr & Ht'). congruence.
      * split; [discriminate|].
        intros ([= ->] & Hr & Ht'). rewrite Hlat, Hlon in Hr. discriminate.
    + split; [discriminate|].
      intros ([= ->] & Hr & Ht'). rewrite Hlat in Hr. discriminate.
  - split; [discriminate|]. intros (Hn & _). discriminate.
Qed.

(** *** The loop *)

Lemma loop_length (attr : attribute) (locs : list item)
    (indices : list nat) (st : loop_state) :
  (length (loop geo attr locs indices st).1 <= length indices)%nat.
Proof.
  revert st. induction indices as [|index indices IH]; intros st; simpl.
  - lia.
  - destruct (loop_body geo attr locs index st) as [[yielded st']|e]; simpl;
      [|lia].
    specialize (IH st').
    destruct (loop geo attr locs indices st') as [events ending].
    destruct yielded; simpl in *; lia.
Qed.

Lemma unique_path_length (attr : attribute) (locs : list item) :
  (length (unique_path geo attr locs).1 <= 1 + (length locs - 2))%nat.
Proof.
  unfold unique_path.
  destruct (initial geo locs) as [[[a c] t]|e]; simpl; [|lia].
  pose proof (loop_length attr locs (loop_indices (length locs))
    {| current_coordinate := None; current_location := None;
       last_coordinate := c; last_location := a |}) as Hlen.
  unfold loop_indices in *. rewrite length_seq in Hlen.
  destruct (loop geo attr locs _ _) as [events ending]. simpl in *. lia.
Qed.

Lemma unique_path_head (attr : attribute) (locs : list item) (ev : event) :
  head (unique_path geo attr locs).1 = Some ev ->
  exists a c t, initial geo locs = Ok (a, c, t) /\ ev = (None, None, c, t).
Proof.
  unfold unique_path.
  destruct (initial geo locs) as [[[a c] t]|e]; simpl; [|discriminate].
  destruct (loop geo attr locs _ _) as [events ending]. simpl.
  intros [= <-]. eauto.
Qed.

(** What a pass through the loop body has read and written when it does
    not raise. *)
Lemma loop_body_Ok (attr : attribute) (locs : list item) (index : nat)
    (st st' : loop_state) (yielded : option event) :
  loop_body geo attr locs index st = Ok (yielded, st') ->
  exists cur next_location next,
    (current_coordinate st = Some cur
     \/ (current_coordinate st = None
         /\ exists l, locs !! index = Some l /\ resolve geo l = Ok cur))
    /\ locs !! (index + 1)%nat = Some next_location
    /\ resolve geo next_location = Ok next
    /\ current_coordinate st' = Some next
    /\ ((String.eqb (getattr next attr) (getattr cur attr) = true
         /\ yielded = None
         /\ last_location st' = last_location st)
        \/ (String.eqb (getattr next attr) (getattr cur attr) = false
            /\ exists tl tn,
                timestamp (last_location st) = Ok tl
                /\ timestamp next_location = Ok tn
                /\ yielded = Some (Some cur, Some tl, next, tn)
                /\ last_location st' = next_location)).
Proof.
  unfold loop_body, index_list. intros Hb.
  assert (exists cur,
    (current_coordinate st = Some cur
     \/ (current_coordinate st = None
         /\ exists l, locs !! index = Some l /\ resolve geo l = Ok cur))
    /\ (next_location <- match locs !! (index + 1)%nat with
                         | Some x => Ok x
                         | None => Raise IndexError
                         end ;;
        next_coordinate <- resolve geo next_location ;;
        if negb (String.eqb (getattr next_coordinate attr) (getattr cur attr))
        then
          last_timestamp <- timestamp (last_location st) ;;
          next_timestamp <- timestamp next_location ;;
          Ok (Some (Some cur, Some last_timestamp,
                    next_coordinate, next_timestamp),
              {| current_coordinate := Some next_coordinate;
                 current_location := Some next_location;
                 last_coordinate := next_coordinate;
                 last_location := next_location |})
        else
          Ok (None,
              {| current_coordinate := Some next_coordinate;
                 current_location := Some next_location;
                 last_coordinate := last_coordinate st;
                 last_location := last_location st |}))
       = Ok (yielded, st')) as (cur & Hcur & Hrest).
  { destruct (current_coordinate st) as [c|].
    - exists c. split; [left; reflexivity | exact Hb].
    - destruct (locs !! index) as [l|]; [|discriminate].
      simpl in Hb. destruct (resolve geo l) as [c|] eqn:Hr; [|discriminate].
      exists c. split; [right; eauto | exact Hb]. }
  clear Hb. exists cur.
  destruct (locs !! (index + 1)%nat) as [nl|] eqn:Hnl; [|discriminate].
  simpl in Hrest.
  destruct (resolve geo nl) as [next|] eqn:Hnext; [|discriminate].
  simpl in Hrest. exists nl, next.
  split; [exact Hcur|]. split; [reflexivity|]. split; [exact Hnext|].
  destruct (String.eqb (getattr next attr) (getattr cur attr)); simpl in Hrest.
  - injection Hrest as <- <-. simpl. split; [reflexivity|]. left. auto.
  - destruct (timestamp (last_location st)) as [tl|] eqn:Htl; [|discriminate].
    simpl in Hrest.
    destruct (timestamp nl) as [tn|] eqn:Htn; [|discriminate].
    simpl in Hrest. injection Hrest as <- <-. simpl.
    split; [reflexivity|]. right. split; [reflexivity|].
    exists tl, tn. auto.
Qed.

(** A pass through the loop body on samples that resolve. *)
Lemma loop_body_step (attr : attribute) (locs : list item) (index : nat)
    (st : loop_state) (cur next : Coordinate) (next_location : item)
    (tl tn : Z) :
  (current_coordinate st = Some cur
   \/ (current_coordinate st = None
       /\ exists l, locs !! index = Some l /\ resolve geo l = Ok cur)) ->
  locs !! (index + 1)%nat = Some next_location ->
  resolve geo next_location = Ok next ->
  timestamp (last_location st) = Ok tl ->
  timestamp next_location = Ok tn ->
  exists st',
    loop_body geo attr locs index st
    = Ok (if negb (String.eqb (getattr next attr) (getattr cur attr))
          then Some (Some cur, Some tl, next, tn) else None, st')
    /\ current_coordinate st' = Some next
    /\ last_location st'
       = if negb (String.eqb (getattr next attr) (getattr cur attr))
         then next_location else last_location st.
Proof.
  intros Hcur Hnl Hnext Htl Htn. unfold loop_body, index_list.
  destruct Hcur as [Hc | (Hc & l & Hl & Hr)]; rewrite Hc;
    [| rewrite Hl; simpl; rewrite Hr]; simpl;
    rewrite Hnl; simpl; rewrite Hnext; simpl;
    destruct (String.eqb (getattr next attr) (getattr cur attr)); simpl;
    rewrite ?Htl, ?Htn; simpl; eexists; split; try reflexivity; auto.
Qed.

(** *** Timestamps of the yielded tuples *)

Lemma loop_timestamps (attr : attribute) (locs : list item) (ts : list Z) :
  Forall2 (fun it t => timestamp it = Ok t) locs ts ->
  StronglySorted Z.le ts ->
  forall (m i : nat) (st : loop_state) (t0 : Z),
    timestamp (last_location st) = Ok t0 ->
    (forall k t, (i < k)%nat -> ts !! k = Some t -> t0 <= t) ->
    Sorted Z.le
      (t0 :: event_timestamps (loop geo attr locs (seq i m) st).1).
Proof.
  intros HF Hs. induction m as [|m IH]; intros i st t0 Ht0 Hle; simpl.
  - repeat constructor.
  - destruct (loop_body geo attr locs i st) as [[yielded st']|e] eqn:Hb;
      simpl; [|repeat constructor].
    apply loop_body_Ok in Hb
      as (cur & nl & next & Hcur & Hnl & Hnext & Hc'
          & [(Heq & -> & Hlast) | (Hne & tl & tn & Htl & Htn & -> & Hlast)]).
    + specialize (IH (S i) st' t0).
      destruct (loop geo attr locs (seq (S i) m) st') as [events ending].
      simpl in *. apply IH.
      * rewrite Hlast. assumption.
      * intros k t Hk. apply Hle. lia.
    + assert (tl = t0) as -> by congruence.
      destruct (Forall2_lookup_l _ _ _ _ _ HF Hnl) as (tn' & Htn' & Hnl').
      simpl in Hnl'. assert (tn' = tn) as -> by congruence.
      specialize (IH (S i) st' tn).
      destruct (loop geo attr locs (seq (S i) m) st') as [events ending].
      simpl in *.
      constructor; [|constructor; lia].
      constructor; [|constructor; apply (Hle (i + 1)%nat); [lia|assumption]].
      apply IH.
      * rewrite Hlast. assumption.
      * intros k t Hk Hkt.
        apply (StronglySorted_lookup Z.le ts (i + 1) k); auto. lia.
Qed.

Lemma unique_path_timestamps (attr : attribute) (locs : list item)
    (ts : list Z) :
  Forall2 (fun it t => timestamp it = Ok t) locs ts ->
  StronglySorted Z.le ts ->
  Sorted Z.le (event_timestamps (unique_path geo attr locs).1).
Proof.
  intros HF Hs. unfold unique_path.
  destruct (initial geo locs) as [[[a c] t]|e] eqn:Hi; [|constructor].
  apply initial_Ok in Hi as (Ha & Hc & Ht).
  destruct (Forall2_lookup_l _ _ _ _ _ HF Ha) as (t' & Ht' & Hat').
  simpl in Hat'. assert (t' = t) as -> by congruence.
  pose proof (loop_timestamps attr locs ts HF Hs (length locs - 2) 1
    {| current_coordinate := None; current_location := None;
       last_coordinate := c; last_location := a |} t Ht) as Hloop.
  unfold loop_indices.
  destruct (loop geo attr locs (seq 1 (length locs - 2)) _)
    as [events ending].
  simpl in *. apply Hloop. intros k tk Hk Htk.
  apply (StronglySorted_lookup Z.le ts 0 k); auto. lia.
Qed.

(** *** The tuples yielded on samples that all resolve *)

Lemma loop_transitions (attr : attribute) (locs : list item)
    (samples : list (Coordinate * Z)) :
  Forall2 (fun it s => resolve geo it = Ok s.1 /\ timestamp it = Ok s.2)
          locs samples ->
  forall (m i : nat) (st : loop_state) (cur : Coordinate) (entry : Z),
    (current_coordinate st = Some cur
     \/ (current_coordinate st = None
         /\ exists l, locs !! i = Some l /\ resolve geo l = Ok cur)) ->
    timestamp (last_location st) = Ok entry ->
    (i + m + 1 = length locs)%nat ->
    loop geo attr locs (seq i m) st
    = (transitions attr cur entry (drop (S i) samples), None).
Proof.
  intros HF. pose proof (Forall2_length _ _ _ HF) as Hlen.
  induction m as [|m IH]; intros i st cur entry Hcur Hentry Him; simpl.
  - rewrite drop_ge by lia. reflexivity.
  - destruct (lookup_lt_is_Some_2 locs (i + 1)) as [nl Hnl]; [lia|].
    destruct (Forall2_lookup_l _ _ _ _ _ HF Hnl)
      as ([next tn] & Hs & Hnext & Htn).
    simpl in Hnext, Htn.
    destruct (loop_body_step attr locs i st cur next nl entry tn
                Hcur Hnl Hnext Hentry Htn) as (st' & Hb & Hc' & Hl').
    rewrite Hb.
    replace (S i) with (i + 1)%nat by lia.
    rewrite (drop_S samples (next, tn) (i + 1) Hs). simpl.
    replace (i + 1)%nat with (S i) by lia.
    destruct (negb (String.eqb (getattr next attr) (getattr cur attr))).
    + rewrite (IH (S i) st' next tn); [reflexivity | auto | |lia].
      rewrite Hl'. assumption.
    + rewrite (IH (S i) st' next entry); [reflexivity | auto | |lia].
      rewrite Hl'. assumption.
Qed.

(** On samples that all resolve the generator returns normally, and what
    it yields is [code_unique_path] of the resolved samples; on the empty
    list it ends with [IndexError] before any tuple. *)
Lemma unique_path_resolved (attr : attribute) (locs : list item)
    (samples : list (Coordinate * Z)) :
  Forall2 (fun it s => resolve geo it = Ok s.1 /\ timestamp it = Ok s.2)
          locs samples ->
  unique_path geo attr locs
  = match samples with
    | [] => ([], Some IndexError)
    | _ :: _ => (code_unique_path attr samples, None)
    end.
Proof.
  intros HF. destruct HF as [|a [c t] locs samples [Hc Ht] HF].
  - reflexivity.
  - simpl in Hc, Ht. unfold unique_path.
    assert (initial geo (a :: locs) = Ok (a, c, t)) as ->
      by (apply initial_Ok; auto).
    unfold loop_indices. destruct HF as [|b [c1 t1] locs samples [Hc1 Ht1] HF].
    + reflexivity.
    + simpl in Hc1, Ht1. simpl length.
      replace (S (S (length locs)) - 2)%nat with (length locs) by lia.
      rewrite (loop_transitions attr (a :: b :: locs)
                 ((c, t) :: (c1, t1) :: samples)
                 ltac:(repeat constructor; auto)
                 (length locs) 1 _ c1 t).
      * reflexivity.
      * right. split; [reflexivity|]. exists b. auto.
      * exact Ht.
      * simpl. lia.
Qed.
End SegmenterFacts.

(** ** Sample data *)

Lemma resolve_in_US (ts : pyval) : resolve near_two_cities (in_US ts) = Ok place_US.
Proof. reflexivity. Qed.

Lemma resolve_in_FR (ts : pyval) : resolve near_two_cities (in_FR ts) = Ok place_FR.
Proof. reflexivity. Qed.


(** ** The segmenter on the filtered, ordered list *)

Lemma iter_unique_path_by_attribute_Ok {K : Type} `{PyLt K}
    (geo : Q -> Q -> result Coordinate) (attr : attribute)
    (locations : list item) (filter_func : item -> bool)
    (key_func : item -> K) (locs : list item) :
  iter_chronologically locations filter_func key_func = Ok locs ->
  iter_unique_path_by_attribute geo attr locations filter_func key_func
  = unique_path geo attr locs.
Proof. intros E. unfold iter_unique_path_by_attribute. rewrite E. reflexivity. Qed.

(** C10. When the filtered, ordered list holds exactly two samples, the
    segmenter yields one tuple, the initial one with no previous node and no
    previous timestamp, and returns without an exception, whatever the
    second sample is (it is never read: the range of the loop is empty). *)
Theorem two_samples_yield_only_the_initial_tuple {K : Type} `{PyLt K}
    (geo : Q -> Q -> result Coordinate) (attr : attribute)
    (locations : list item) (filter_func : item -> bool)
    (key_func : item -> K) (a b : item) (c : Coordinate) (t : Z) :
  iter_chronologically locations filter_func key_func = Ok [a; b] ->
  resolve geo a = Ok c ->
  timestamp a = Ok t ->
  iter_unique_path_by_attribute geo attr locations filter_func key_func
  = ([(None, None, c, t)], None)
  /\ loop_indices (length [a; b]) = [].
Proof.
  intros E Hc Ht. split; [|reflexivity].
  rewrite (iter_unique_path_by_attribute_Ok _ _ _ _ _ _ E).
  unfold unique_path.
  assert (initial geo [a; b] = Ok (a, c, t)) as -> by (apply initial_Ok; auto).
  reflexivity.
Qed.

(** Two samples in different countries: one tuple, no transition. *)
Lemma two_samples_yield_only_the_initial_tuple_witness :
  iter_unique_path_by_attribute near_two_cities attr_country
    [in_US (PInt 100); in_FR (PInt 200)]
    _default_filter_func _default_key_func
  = ([(None, None, place_US, 100)], None)
  /\ country place_US <> country place_FR.
Proof.
  split; [|discriminate].
  apply (two_samples_yield_only_the_initial_tuple near_two_cities attr_country
           [in_US (PInt 100); in_FR (PInt 200)]
           _default_filter_func _default_key_func
           (in_US (PInt 100)) (in_FR (PInt 200)) place_US 100).
  - reflexivity.
  - apply resolve_in_US.
  - reflexivity.
Defined.

(** C7. When the filtered, ordered list holds [n >= 2] samples, the
    segmenter yields at most [n - 1] tuples, whatever their timestamps and
    however the iteration ends; a first yielded tuple has no previous node
    and no previous timestamp; and there is a first tuple as soon as the
    first sample resolves. *)
Theorem at_most_n_minus_one_tuples {K : Type} `{PyLt K}
    (geo : Q -> Q -> result Coordinate) (attr : attribute)
    (locations : list item) (filter_func : item -> bool)
    (key_func : item -> K) (locs : list item) :
  iter_chronologically locations filter_func key_func = Ok locs ->
  (2 <= length locs)%nat ->
  let events :=
    (iter_unique_path_by_attribute geo attr locations filter_func key_func).1 in
  (length events <= length locs - 1)%nat
  /\ (forall ev, head events = Some ev ->
        previous_node ev = None /\ previous_timestamp ev = None)
  /\ (forall a c t, locs !! 0%nat = Some a -> resolve geo a = Ok c ->
        timestamp a = Ok t -> head events = Some (None, None, c, t)).
Proof.
  intros E Hn events. subst events.
  rewrite (iter_unique_path_by_attribute_Ok _ _ _ _ _ _ E).
  split; [|split].
  - pose proof (unique_path_length geo attr locs). lia.
  - intros ev Hev.
    apply unique_path_head in Hev as (a & c & t & _ & ->). auto.
  - intros a c t Ha Hc Ht. unfold unique_path.
    assert (initial geo locs = Ok (a, c, t)) as -> by (apply initial_Ok; auto).
    destruct (loop geo attr locs _ _). reflexivity.
Qed.

(** Three samples, US, FR, US: two tuples, the first one the initial one. *)
Lemma at_most_n_minus_one_tuples_witness :
  let events :=
    (iter_unique_path_by_attribute near_two_cities attr_country
       [in_US (PInt 100); in_FR (PInt 200); in_US (PInt 300)]
       _default_filter_func _default_key_func).1 in
  (length events <= 3 - 1)%nat
  /\ head events = Some (None, None, place_US, 100).
Proof.
  destruct (at_most_n_minus_one_tuples near_two_cities attr_country
              [in_US (PInt 100); in_FR (PInt 200); in_US (PInt 300)]
              _default_filter_func _default_key_func
              [in_US (PInt 100); in_FR (PInt 200); in_US (PInt 300)])
    as (Hlen & _ & Hhead).
  - reflexivity.
  - simpl. lia.
  - split; [exact Hlen|].
    apply (Hhead (in_US (PInt 100))); [reflexivity | apply resolve_in_US | reflexivity].
Defined.

(** C3. Four samples with timestamps 100, 200, 300, 400 resolving to the
    countries US, US, FR, FR: segmenting on the country yields exactly two
    tuples, the initial one [(None, None, US place, 100)] and one transition
    whose previous timestamp is 100 and whose next node and timestamp are
    the FR place of the third sample and 300. *)
Theorem four_samples_two_countries {K : Type} `{PyLt K}
    (geo : Q -> Q -> result Coordinate)
    (locations : list item) (filter_func : item -> bool)
    (key_func : item -> K) (s1 s2 s3 s4 : item) (c1 c2 c3 c4 : Coordinate) :
  iter_chronologically locations filter_func key_func = Ok [s1; s2; s3; s4] ->
  resolve geo s1 = Ok c1 /\ timestamp s1 = Ok 100 /\ country c1 = "US" ->
  resolve geo s2 = Ok c2 /\ timestamp s2 = Ok 200 /\ country c2 = "US" ->
  resolve geo s3 = Ok c3 /\ timestamp s3 = Ok 300 /\ country c3 = "FR" ->
  resolve geo s4 = Ok c4 /\ timestamp s4 = Ok 400 /\ country c4 = "FR" ->
  iter_unique_path_by_attribute geo attr_country locations filter_func key_func
  = ([(None, None, c1, 100); (Some c2, Some 100, c3, 300)], None).
Proof.
  intros E (R1 & T1 & U1) (R2 & T2 & U2) (R3 & T3 & U3) (R4 & T4 & U4).
  rewrite (iter_unique_path_by_attribute_Ok _ _ _ _ _ _ E).
  rewrite (unique_path_resolved geo attr_country [s1; s2; s3; s4]
             [(c1, 100); (c2, 200); (c3, 300); (c4, 400)])
    by (repeat constructor; assumption).
  simpl. rewrite U2, U3, U4. reflexivity.
Qed.

Lemma four_samples_two_countries_witness :
  iter_unique_path_by_attribute near_two_cities attr_country
    [in_US (PInt 100); in_US (PInt 200); in_FR (PInt 300); in_FR (PInt 400)]
    _default_filter_func _default_key_func
  = ([(None, None, place_US, 100); (Some place_US, Some 100, place_FR, 300)],
     None).
Proof.
  apply (four_samples_two_countries near_two_cities
           [in_US (PInt 100); in_US (PInt 200); in_FR (PInt 300); in_FR (PInt 400)]
           _default_filter_func _default_key_func
           (in_US (PInt 100)) (in_US (PInt 200))
           (in_FR (PInt 300)) (in_FR (PInt 400))
           place_US place_US place_FR place_FR).
  - reflexivity.
  - split; [apply resolve_in_US | split; reflexivity].
  - split; [apply resolve_in_US | split; reflexivity].
  - split; [apply resolve_in_FR | split; reflexivity].
  - split; [apply resolve_in_FR | split; reflexivity].
Defined.

(** C2 (as amended). When the filtered, ordered list is empty, the
    segmenter ends with [IndexError] before it yields anything; when it
    holds one sample that resolves, the segmenter yields the initial tuple
    and returns without an exception. *)
Theorem fewer_than_two_samples {K : Type} `{PyLt K}
    (geo : Q -> Q -> result Coordinate) (attr : attribute)
    (locations : list item) (filter_func : item -> bool)
    (key_func : item -> K) (locs : list item) :
  iter_chronologically locations filter_func key_func = Ok locs ->
  (length locs <= 1)%nat ->
  (locs = [] ->
   iter_unique_path_by_attribute geo attr locations filter_func key_func
   = ([], Some IndexError))
  /\ (forall a c t, locs = [a] -> resolve geo a = Ok c -> timestamp a = Ok t ->
      iter_unique_path_by_attribute geo attr locations filter_func key_func
      = ([(None, None, c, t)], None)).
Proof.
  intros E _. rewrite (iter_unique_path_by_attribute_Ok _ _ _ _ _ _ E). split.
  - intros ->. reflexivity.
  - intros a c t -> Hc Ht. unfold unique_path.
    assert (initial geo [a] = Ok (a, c, t)) as -> by (apply initial_Ok; auto).
    reflexivity.
Qed.

Lemma fewer_than_two_samples_witness :
  iter_unique_path_by_attribute near_two_cities attr_country
    [in_FR (PInt 0); in_US (PStr "100")]
    _default_filter_func _default_key_func
  = ([(None, None, place_US, 100)], None).
Proof.
  destruct (fewer_than_two_samples near_two_cities attr_country
              [in_FR (PInt 0); in_US (PStr "100")]
              _default_filter_func _default_key_func [in_US (PStr "100")])
    as [_ Hone].
  - reflexivity.
  - simpl. lia.
  - apply (Hone (in_US (PStr "100")) place_US 100);
      [reflexivity | apply resolve_in_US | reflexivity].
Defined.

(** An input whose one sample is filtered out ends with [IndexError]; an
    input of one kept sample is segmented without any exception. *)
Lemma fewer_than_two_samples_counterexample :
  iter_unique_path_by_attribute near_two_cities attr_country
    [in_US (PInt 0)] _default_filter_func _default_key_func
  = ([], Some IndexError)
  /\ iter_unique_path_by_attribute near_two_cities attr_country
       [in_US (PInt 100)] _default_filter_func _default_key_func
     = ([(None, None, place_US, 100)], None).
Proof. split; reflexivity. Qed.

(** C1 (failing input). Three samples in the countries US, FR, FR: the
    place changes between the first and the second sample, and the
    segmenter yields the initial tuple only, where the segmentation the
    specification describes reports the entry into FR at 200. *)
Theorem first_boundary_is_not_reported :
  iter_unique_path_by_attribute near_two_cities attr_country
    [in_US (PInt 100); in_FR (PInt 200); in_FR (PInt 300)]
    _default_filter_func _default_key_func
  = ([(None, None, place_US, 100)], None)
  /\ spec_unique_path attr_country
       [(place_US, 100); (place_FR, 200); (place_FR, 300)]
     = [(None, None, place_US, 100);
        (Some place_US, Some 100, place_FR, 200)].
Proof. split; reflexivity. Qed.

(** ** Keys that sort in numeric order *)

Lemma numerically_ordered_orders (P : item -> Prop) :
  numerically_ordered P -> orders _default_key_func P.
Proof.
  intros HP. split; unfold key_le.
  - intros a b Pa Pb. destruct (HP a b Pa Pb) as (x & y & _ & _ & E). eauto.
  - intros a b Pa Pb Hlt.
    destruct (HP a b Pa Pb) as (x & y & Hx & Hy & E).
    destruct (HP b a Pb Pa) as (y' & x' & Hy' & Hx' & E').
    assert (x' = x) as -> by congruence. assert (y' = y) as -> by congruence.
    rewrite E'. f_equal. rewrite E in Hlt. injection Hlt as Hlt.
    apply Z.ltb_lt in Hlt. apply Z.ltb_ge. lia.
  - intros a b c Pa Pb Pc.
    destruct (HP b a Pb Pa) as (y & x & Hy & Hx & E1).
    destruct (HP c b Pc Pb) as (z & y' & Hz & Hy' & E2).
    destruct (HP c a Pc Pa) as (z' & x' & Hz' & Hx' & E3).
    assert (x' = x) as -> by congruence. assert (y' = y) as -> by congruence.
    assert (z' = z) as -> by congruence.
    rewrite E1, E2, E3. intros [= H1] [= H2]. f_equal.
    apply Z.ltb_ge in H1, H2. apply Z.ltb_ge. lia.
Qed.

(** Under such keys, a list in ascending key order has non-decreasing
    timestamps. *)
Lemma numerically_ordered_sorted (P : item -> Prop) (locs : list item) :
  numerically_ordered P -> Forall P locs ->
  StronglySorted (key_le _default_key_func) locs ->
  exists ts, Forall2 (fun it t => timestamp it = Ok t) locs ts
             /\ StronglySorted Z.le ts.
Proof.
  intros HP. induction locs as [|a locs IH]; intros HF Hs.
  - exists []. split; constructor.
  - apply Forall_cons in HF as [Pa HF].
    apply StronglySorted_inv in Hs as [Hs Ha].
    destruct (IH HF Hs) as (ts & H2 & Hts).
    destruct (HP a a Pa Pa) as (x & _ & Hx & _ & _).
    exists (x :: ts). split; [constructor; assumption|].
    constructor; [assumption|].
    apply Forall_forall. intros t Ht.
    apply list_elem_of_lookup in Ht as [i Hi].
    destruct (Forall2_lookup_r _ _ _ _ _ H2 Hi) as (b & Hb & Hbt).
    simpl in Hbt.
    assert (b ∈ locs) as Hin by (eapply list_elem_of_lookup_2; eassumption).
    rewrite Forall_forall in Ha, HF.
    specialize (Ha b Hin). unfold key_le in Ha.
    destruct (HP b a (HF b Hin) Pa) as (y & x' & Hy & Hx' & E).
    assert (x' = x) as -> by congruence. assert (y = t) as -> by congruence.
    rewrite E in Ha. injection Ha as Ha. apply Z.ltb_ge in Ha. exact Ha.
Qed.

Lemma int_timestamp_numerically_ordered : numerically_ordered int_timestamp.
Proof.
  intros a b [x Ha] [y Hb]. exists x, y.
  unfold timestamp, getitem, _default_key_func. rewrite Ha, Hb.
  repeat split; reflexivity.
Qed.

(** *** Strings of decimal digits of one length *)

Lemma digit_of_Some (c : ascii) (d : Z) :
  digit_of c = Some d ->
  0 <= d <= 9 /\ d = Z.of_N (N_of_ascii c) - 48.
Proof.
  unfold digit_of, nat_of_ascii. rewrite N_nat_Z.
  destruct (_ && _) eqn:E; [|discriminate].
  intros [= <-]. apply andb_true_iff in E as [E1 E2].
  apply Z.leb_le in E1, E2. lia.
Qed.

Lemma is_digit_Some (c : ascii) :
  is_digit c = true -> exists d, digit_of c = Some d.
Proof. unfold is_digit. destruct (digit_of c); [eauto | discriminate]. Qed.

Lemma int_of_string_digit_first (c : ascii) (s : string) :
  is_digit c = true ->
  int_of_string (String c s)
  = match int_digits (String c s) 0 false with
    | Some z => Ok z
    | None => Raise ValueError
    end.
Proof.
  destruct c as [[] [] [] [] [] [] [] []]; intros Hc;
    first [ vm_compute in Hc; discriminate Hc | reflexivity ].
Qed.

Lemma int_digits_all_digits (s : string) (acc : Z) (b : bool) :
  all_digits s = true -> s <> "" \/ b = true ->
  int_digits s acc b = Some (digits_value s acc).
Proof.
  revert acc b. induction s as [|c s IH]; intros acc b Hs Hb.
  - destruct Hb as [Hb | ->]; [congruence | reflexivity].
  - simpl in Hs. apply andb_true_iff in Hs as [Hc Hs].
    apply is_digit_Some in Hc as [d Hd]. simpl. rewrite Hd. simpl.
    apply IH; auto.
Qed.

Lemma int_of_string_digits (s : string) :
  all_digits s = true -> s <> "" ->
  int_of_string s = Ok (digits_value s 0).
Proof.
  intros Hs Hne. destruct s as [|c s]; [congruence|].
  pose proof Hs as Hs'. simpl in Hs'. apply andb_true_iff in Hs' as [Hc _].
  rewrite (int_of_string_digit_first c s Hc).
  rewrite (int_digits_all_digits (String c s) 0 false Hs); auto.
Qed.

Lemma digits_value_acc (s : string) :
  all_digits s = true ->
  forall acc,
    digits_value s acc
    = acc * 10 ^ Z.of_nat (String.length s) + digits_value s 0
    /\ 0 <= digits_value s 0 < 10 ^ Z.of_nat (String.length s).
Proof.
  induction s as [|c s IH]; intros Hs acc.
  - simpl. lia.
  - simpl in Hs. apply andb_true_iff in Hs as [Hc Hs].
    apply is_digit_Some in Hc as [d Hd].
    destruct (digit_of_Some c d Hd) as [Hd09 _].
    cbn [digits_value String.length]. rewrite Hd. cbn [default from_option]. unfold id.
    rewrite Nat2Z.inj_succ, Z.pow_succ_r by lia.
    destruct (IH Hs (10 * acc + d)) as [E1 Hb].
    destruct (IH Hs (10 * 0 + d)) as [E0 _].
    rewrite E1, E0.
    pose proof (Z.pow_pos_nonneg 10 (Z.of_nat (String.length s))) as Hp.
    nia.
Qed.

Lemma ascii_compare_digits (c d : ascii) (x y : Z) :
  digit_of c = Some x -> digit_of d = Some y ->
  Ascii.compare c d = (x ?= y).
Proof.
  intros Hx Hy.
  apply digit_of_Some in Hx as [_ ->]. apply digit_of_Some in Hy as [_ ->].
  unfold Ascii.compare. rewrite <- N2Z.inj_compare.
  destruct (Z.compare_spec (Z.of_N (N_of_ascii c)) (Z.of_N (N_of_ascii d)));
    symmetry;
    [apply Z.compare_eq_iff | apply Z.compare_lt_iff | apply Z.compare_gt_iff];
    lia.
Qed.

Lemma compare_digits (s t : string) :
  all_digits s = true -> all_digits t = true ->
  String.length s = String.length t ->
  forall acc,
    String.compare s t = (digits_value s acc ?= digits_value t acc).
Proof.
  revert t. induction s as [|c s IH]; intros [|d t] Hs Ht Hlen acc;
    try discriminate Hlen.
  - simpl. symmetry. apply Z.compare_refl.
  - simpl in Hs, Ht, Hlen.
    apply andb_true_iff in Hs as [Hc Hs]. apply andb_true_iff in Ht as [Hd Ht].
    apply is_digit_Some in Hc as [x Hx]. apply is_digit_Some in Hd as [y Hy].
    injection Hlen as Hlen.
    cbn [String.compare digits_value]. rewrite Hx, Hy. cbn [default from_option]. unfold id.
    rewrite (ascii_compare_digits c d x y Hx Hy).
    destruct (digits_value_acc s Hs (10 * acc + x)) as [E1 B1].
    destruct (digits_value_acc t Ht (10 * acc + y)) as [E2 B2].
    rewrite <- Hlen in E2, B2.
    destruct (Z.compare_spec x y) as [-> | Hxy | Hxy].
    + apply IH; assumption.
    + symmetry. apply Z.compare_lt_iff. rewrite E1, E2. nia.
    + symmetry. apply Z.compare_gt_iff. rewrite E1, E2. nia.
Qed.

Lemma ltb_digits (s t : string) :
  all_digits s = true -> all_digits t = true ->
  String.length s = String.length t ->
  String.ltb s t = (digits_value s 0 <? digits_value t 0).
Proof.
  intros Hs Ht Hlen. unfold String.ltb, Z.ltb.
  rewrite (compare_digits s t Hs Ht Hlen 0). reflexivity.
Qed.

Lemma digits_timestamp_numerically_ordered (n : nat) :
  numerically_ordered (digits_timestamp n).
Proof.
  intros a b (s & Ha & Hls & Hn & Hs) (t & Hb & Hlt & _ & Ht).
  exists (digits_value s 0), (digits_value t 0).
  unfold timestamp, getitem, _default_key_func. rewrite Ha, Hb. simpl.
  assert (forall u, String.length u = n -> u <> "") as Hne
    by (intros u Hu ->; simpl in Hu; lia).
  split; [apply int_of_string_digits; auto|].
  split; [apply int_of_string_digits; auto|].
  unfold py_lt, pyval_key_lt. f_equal. apply ltb_digits; congruence.
Qed.

Lemma same_kind_numerically_ordered (l : list item) :
  same_kind_timestamps l ->
  exists P, numerically_ordered P /\ Forall P l.
Proof.
  intros [Hint | [n Hdig]].
  - exists int_timestamp. split; [apply int_timestamp_numerically_ordered | exact Hint].
  - exists (digits_timestamp n).
    split; [apply digits_timestamp_numerically_ordered | exact Hdig].
Qed.

(** C6 (as amended). When the [timestampMs] values of the items kept by
    the default filter are all ints, or all strings of decimal digits of one
    length, the default key orders the samples by non-decreasing timestamp
    (equal timestamps stay adjacent), and the timestamps of the yielded
    tuples, read in the order they are yielded, are non-decreasing. *)
Theorem timestamps_of_one_kind_are_processed_in_order
    (geo : Q -> Q -> result Coordinate) (attr : attribute)
    (locations : list item) :
  same_kind_timestamps (List.filter _default_filter_func locations) ->
  exists locs ts,
    iter_chronologically locations _default_filter_func _default_key_func
    = Ok locs
    /\ locs ≡ₚ List.filter _default_filter_func locations
    /\ Forall2 (fun it t => timestamp it = Ok t) locs ts
    /\ StronglySorted Z.le ts
    /\ Sorted Z.le
         (event_timestamps
            (iter_unique_path_by_attribute geo attr locations
               _default_filter_func _default_key_func).1).
Proof.
  intros Hkind.
  destruct (same_kind_numerically_ordered _ Hkind) as (P & HP & HF).
  destruct (iter_chronologically_ok locations _default_filter_func
              _default_key_func P (numerically_ordered_orders P HP))
    as (locs & E & Hperm & Hs).
  { intros a Ha Hf. rewrite Forall_forall in HF. apply HF.
    apply elem_of_List_filter. auto. }
  assert (Forall P locs) as HF' by (rewrite Hperm; exact HF).
  destruct (numerically_ordered_sorted P locs HP HF' Hs) as (ts & H2 & Hts).
  exists locs, ts. repeat (split; [assumption|]).
  rewrite (iter_unique_path_by_attribute_Ok _ _ _ _ _ _ E).
  apply (unique_path_timestamps geo attr locs ts H2 Hts).
Qed.

(** Thirteen-digit strings, as Google Takeout writes them, given out of
    order. *)
Lemma timestamps_of_one_kind_are_processed_in_order_witness :
  exists locs ts,
    iter_chronologically
      [in_FR (PStr "1507330772000"); in_US (PStr "1446958680600");
       sample (PInt 0) 0 0]
      _default_filter_func _default_key_func
    = Ok locs
    /\ locs ≡ₚ List.filter _default_filter_func
                 [in_FR (PStr "1507330772000"); in_US (PStr "1446958680600");
                  sample (PInt 0) 0 0]
    /\ Forall2 (fun it t => timestamp it = Ok t) locs ts
    /\ StronglySorted Z.le ts
    /\ Sorted Z.le
         (event_timestamps
            (iter_unique_path_by_attribute near_two_cities attr_country
               [in_FR (PStr "1507330772000"); in_US (PStr "1446958680600");
                sample (PInt 0) 0 0]
               _default_filter_func _default_key_func).1).
Proof.
  apply (timestamps_of_one_kind_are_processed_in_order near_two_cities
           attr_country).
  right. exists 13%nat.
  change (Forall (digits_timestamp 13)
            [in_FR (PStr "1507330772000"); in_US (PStr "1446958680600")]).
  repeat constructor.
  - exists "1507330772000". repeat split; lia.
  - exists "1446958680600". repeat split; lia.
Defined.

(** String timestamps of different lengths are kept in the order
    ["100"; "200"; "30"], and the tuples yielded carry the timestamps 100
    and then 30; two samples with the same timestamp are both kept. *)
Lemma timestamps_of_one_kind_are_processed_in_order_counterexample :
  iter_chronologically
    [in_US (PStr "100"); in_US (PStr "200"); in_FR (PStr "30")]
    _default_filter_func _default_key_func
  = Ok [in_US (PStr "100"); in_US (PStr "200"); in_FR (PStr "30")]
  /\ map timestamp [in_US (PStr "100"); in_US (PStr "200"); in_FR (PStr "30")]
     = [Ok 100; Ok 200; Ok 30]
  /\ iter_unique_path_by_attribute near_two_cities attr_country
       [in_US (PStr "100"); in_US (PStr "200"); in_FR (PStr "30")]
       _default_filter_func _default_key_func
     = ([(None, None, place_US, 100); (Some place_US, Some 100, place_FR, 30)],
        None)
  /\ iter_chronologically [in_US (PInt 5); in_FR (PInt 5)]
       _default_filter_func _default_key_func
     = Ok [in_US (PInt 5); in_FR (PInt 5)].
Proof. repeat split; reflexivity. Qed.

(** ** More on the segmenter *)

(** On samples that all resolve, the segmenter returns normally and
    yields the initial tuple followed by the changes of the watched
    attribute from the second sample on: every later sample is compared
    with the sample before it, and a change is reported with the place of
    the sample before it and the timestamp of the tuple yielded last. *)
Theorem resolving_samples_yield_code_unique_path {K : Type} `{PyLt K}
    (geo : Q -> Q -> result Coordinate) (attr : attribute)
    (locations : list item) (filter_func : item -> bool)
    (key_func : item -> K) (locs : list item)
    (samples : list (Coordinate * Z)) :
  iter_chronologically locations filter_func key_func = Ok locs ->
  Forall2 (fun it s => resolve geo it = Ok s.1 /\ timestamp it = Ok s.2)
          locs samples ->
  locs <> [] ->
  iter_unique_path_by_attribute geo attr locations filter_func key_func
  = (code_unique_path attr samples, None).
Proof.
  intros E HF Hne.
  rewrite (iter_unique_path_by_attribute_Ok _ _ _ _ _ _ E).
  rewrite (unique_path_resolved geo attr locs samples HF).
  destruct HF; [congruence | reflexivity].
Qed.

(** US, FR, FR, US: the entry into FR is not reported, and the exit from
    FR carries the timestamp of the first sample. *)
Lemma resolving_samples_yield_code_unique_path_witness :
  iter_unique_path_by_attribute near_two_cities attr_country
    [in_US (PInt 100); in_FR (PInt 200); in_FR (PInt 300); in_US (PInt 400)]
    _default_filter_func _default_key_func
  = ([(None, None, place_US, 100); (Some place_FR, Some 100, place_US, 400)],
     None).
Proof.
  apply (resolving_samples_yield_code_unique_path near_two_cities
           attr_country _ _default_filter_func _default_key_func
           [in_US (PInt 100); in_FR (PInt 200); in_FR (PInt 300);
            in_US (PInt 400)]
           [(place_US, 100); (place_FR, 200); (place_FR, 300);
            (place_US, 400)]).
  - reflexivity.
  - repeat constructor; simpl;
      first [apply resolve_in_US | apply resolve_in_FR | reflexivity].
  - discriminate.
Defined.

(** When the first two samples share the watched attribute, the
    segmenter yields what the segmentation of the specification yields. *)
Theorem first_two_alike_yield_spec_unique_path {K : Type} `{PyLt K}
    (geo : Q -> Q -> result Coordinate) (attr : attribute)
    (locations : list item) (filter_func : item -> bool)
    (key_func : item -> K) (locs : list item)
    (first second : Coordinate * Z) (samples : list (Coordinate * Z)) :
  iter_chronologically locations filter_func key_func = Ok locs ->
  Forall2 (fun it s => resolve geo it = Ok s.1 /\ timestamp it = Ok s.2)
          locs (first :: second :: samples) ->
  getattr second.1 attr = getattr first.1 attr ->
  iter_unique_path_by_attribute geo attr locations filter_func key_func
  = (spec_unique_path attr (first :: second :: samples), None).
Proof.
  intros E HF Hsame.
  rewrite (iter_unique_path_by_attribute_Ok _ _ _ _ _ _ E).
  rewrite (unique_path_resolved geo attr locs _ HF).
  destruct first as [c0 t0], second as [c1 t1]. simpl in *.
  rewrite Hsame, String.eqb_refl. reflexivity.
Qed.

Lemma first_two_alike_yield_spec_unique_path_witness :
  iter_unique_path_by_attribute near_two_cities attr_country
    [in_US (PInt 100); in_US (PInt 200); in_FR (PInt 300)]
    _default_filter_func _default_key_func
  = (spec_unique_path attr_country
       [(place_US, 100); (place_US, 200); (place_FR, 300)], None).
Proof.
  apply (first_two_alike_yield_spec_unique_path near_two_cities
           attr_country _ _default_filter_func _default_key_func
           [in_US (PInt 100); in_US (PInt 200); in_FR (PInt 300)]).
  - reflexivity.
  - repeat constructor; simpl;
      first [apply resolve_in_US | apply resolve_in_FR | reflexivity].
  - reflexivity.
Defined.

(** A sample whose watched attribute is the empty string, followed by a
    sample whose attribute is a name: a transition is yielded (from the
    second sample on). *)
Theorem unresolved_then_named_is_a_transition {K : Type} `{PyLt K}
    (geo : Q -> Q -> result Coordinate) (attr : attribute)
    (locations : list item) (filter_func : item -> bool)
    (key_func : item -> K) (s0 s1 s2 : item) (c0 c1 c2 : Coordinate)
    (t0 t1 t2 : Z) :
  iter_chronologically locations filter_func key_func = Ok [s0; s1; s2] ->
  resolve geo s0 = Ok c0 /\ timestamp s0 = Ok t0 ->
  resolve geo s1 = Ok c1 /\ timestamp s1 = Ok t1 ->
  resolve geo s2 = Ok c2 /\ timestamp s2 = Ok t2 ->
  getattr c1 attr = "" ->
  getattr c2 attr <> "" ->
  iter_unique_path_by_attribute geo attr locations filter_func key_func
  = ([(None, None, c0, t0); (Some c1, Some t0, c2, t2)], None).
Proof.
  intros E [R0 T0] [R1 T1] [R2 T2] Hempty Hnamed.
  rewrite (iter_unique_path_by_attribute_Ok _ _ _ _ _ _ E).
  rewrite (unique_path_resolved geo attr [s0; s1; s2]
             [(c0, t0); (c1, t1); (c2, t2)])
    by (repeat constructor; assumption).
  simpl. rewrite Hempty.
  destruct (String.eqb_spec (getattr c2 attr) ""); [contradiction|].
  reflexivity.
Qed.

(** A place of unlisted country, then a place in the US. *)
Lemma unresolved_then_named_is_a_transition_witness :
  iter_unique_path_by_attribute near_unlisted attr_country
    [in_US (PInt 100); in_FR (PInt 200); in_US (PInt 300)]
    _default_filter_func _default_key_func
  = ([(None, None, place_US, 100);
      (Some place_unlisted, Some 100, place_US, 300)], None).
Proof.
  apply (unresolved_then_named_is_a_transition near_unlisted attr_country
           [in_US (PInt 100); in_FR (PInt 200); in_US (PInt 300)]
           _default_filter_func _default_key_func
           (in_US (PInt 100)) (in_FR (PInt 200)) (in_US (PInt 300))
           place_US place_unlisted place_US 100 200 300).
  - reflexivity.
  - split; reflexivity.
  - split; reflexivity.
  - split; reflexivity.
  - reflexivity.
  - discriminate.
Defined.

(** *** Keys of two kinds *)

Lemma insert_sorted_perm {A K : Type} `{PyLt K} (key_func : A -> K)
    (x : A) (l out : list A) :
  insert_sorted key_func x l = Ok out -> out ≡ₚ x :: l.
Proof.
  revert out. induction l as [|y l IH]; intros out; simpl.
  - intros [= <-]. reflexivity.
  - destruct (py_lt (key_func y) (key_func x)) as [[]|]; simpl;
      [|intros [= <-]; reflexivity | discriminate].
    destruct (insert_sorted key_func x l) as [r|]; simpl; [|discriminate].
    intros [= <-]. rewrite (IH r eq_refl). apply perm_swap.
Qed.

Lemma sorted_perm {A K : Type} `{PyLt K} (key_func : A -> K)
    (l out : list A) :
  sorted key_func l = Ok out -> out ≡ₚ l.
Proof.
  revert out. induction l as [|x l IH]; intros out; simpl.
  - intros [= <-]. reflexivity.
  - destruct (sorted key_func l) as [s|]; simpl; [|discriminate].
    intros Hins. apply insert_sorted_perm in Hins. rewrite Hins, (IH s eq_refl).
    reflexivity.
Qed.

Lemma py_lt_Ok_same_kind (a b : item) (c : bool) :
  py_lt (_default_key_func a) (_default_key_func b) = Ok c ->
  (int_timestamp a /\ int_timestamp b) \/ (str_timestamp a /\ str_timestamp b).
Proof.
  unfold _default_key_func, py_lt, pyval_key_lt, int_timestamp, str_timestamp.
  destruct (a !! "timestampMs") as [[x|s]|], (b !! "timestampMs") as [[y|t]|];
    try discriminate; intros _; [left | right]; eauto.
Qed.

Lemma py_lt_Raise (a b : item) (e : exn) :
  py_lt (_default_key_func a) (_default_key_func b) = Raise e -> e = TypeError.
Proof.
  unfold _default_key_func, py_lt, pyval_key_lt.
  destruct (a !! "timestampMs") as [[x|s]|], (b !! "timestampMs") as [[y|t]|];
    congruence.
Qed.

Lemma insert_sorted_Raise (x : item) (l : list item) (e : exn) :
  insert_sorted _default_key_func x l = Raise e -> e = TypeError.
Proof.
  induction l as [|y l IH]; simpl; [discriminate|].
  destruct (py_lt (_default_key_func y) (_default_key_func x)) as [[]|e'] eqn:E;
    simpl.
  - destruct (insert_sorted _default_key_func x l); simpl;
      [discriminate | intros [= <-]; auto].
  - discriminate.
  - intros [= <-]. eapply py_lt_Raise. eassumption.
Qed.

Lemma sorted_Raise (l : list item) (e : exn) :
  sorted _default_key_func l = Raise e -> e = TypeError.
Proof.
  induction l as [|x l IH]; simpl; [discriminate|].
  destruct (sorted _default_key_func l) as [s|e']; simpl.
  - apply insert_sorted_Raise.
  - intros [= <-]. auto.
Qed.

(** A list of two or more items that [sorted] orders without raising has
    timestamps of one kind. *)
Lemma sorted_Ok_one_kind (l out : list item) :
  sorted _default_key_func l = Ok out ->
  (2 <= length l)%nat ->
  Forall int_timestamp l \/ Forall str_timestamp l.
Proof.
  revert out. induction l as [|x l IH]; intros out Hs Hlen; simpl in *; [lia|].
  destruct (sorted _default_key_func l) as [s|] eqn:Es; [|discriminate].
  simpl in Hs. pose proof (sorted_perm _ _ _ Es) as Hperm.
  destruct s as [|w s].
  { apply Permutation_nil_l in Hperm. subst l. simpl in Hlen. lia. }
  simpl in Hs.
  destruct (py_lt (_default_key_func w) (_default_key_func x)) as [c|] eqn:Ec;
    [|discriminate].
  assert (w ∈ l) as Hw by (rewrite <- Hperm; apply elem_of_cons; auto).
  destruct l as [|y [|z l]].
  - apply elem_of_nil in Hw. destruct Hw.
  - apply list_elem_of_singleton in Hw as ->.
    destruct (py_lt_Ok_same_kind _ _ _ Ec) as [[Hy Hx]|[Hy Hx]];
      [left | right]; repeat constructor; assumption.
  - destruct (IH _ eq_refl) as [Hint|Hstr]; [simpl; lia | |].
    + left. constructor; [|assumption].
      rewrite Forall_forall in Hint.
      destruct (py_lt_Ok_same_kind _ _ _ Ec) as [[_ Hx]|[[t Ht] _]];
        [assumption|].
      destruct (Hint w Hw) as [n Hn]. congruence.
    + right. constructor; [|assumption].
      rewrite Forall_forall in Hstr.
      destruct (py_lt_Ok_same_kind _ _ _ Ec) as [[[n Hn] _]|[_ Hx]];
        [|assumption].
      destruct (Hstr w Hw) as [t Ht]. congruence.
Qed.

(** When the default filter keeps an item with an int timestamp and an
    item with a string timestamp, ordering them raises [TypeError], and
    so does the segmenter, before it yields anything. *)
Theorem timestamps_of_two_kinds_raise_TypeError
    (geo : Q -> Q -> result Coordinate) (attr : attribute)
    (locations : list item) (a b : item) :
  a ∈ List.filter _default_filter_func locations ->
  b ∈ List.filter _default_filter_func locations ->
  int_timestamp a ->
  str_timestamp b ->
  iter_chronologically locations _default_filter_func _default_key_func
  = Raise TypeError
  /\ iter_unique_path_by_attribute geo attr locations
       _default_filter_func _default_key_func
     = ([], Some TypeError).
Proof.
  intros Ha Hb [n Hn] [t Ht].
  assert (iter_chronologically locations _default_filter_func
            _default_key_func = Raise TypeError) as E.
  { unfold iter_chronologically.
    destruct (sorted _default_key_func
                (List.filter _default_filter_func locations))
      as [out|e] eqn:Es.
    - exfalso.
      destruct (List.filter _default_filter_func locations)
        as [|x [|y l]] eqn:El.
      + apply elem_of_nil in Ha. destruct Ha.
      + apply list_elem_of_singleton in Ha, Hb. congruence.
      + destruct (sorted_Ok_one_kind _ _ Es) as [Hint|Hstr]; [simpl; lia | |].
        * rewrite Forall_forall in Hint. destruct (Hint b Hb) as [m Hm].
          congruence.
        * rewrite Forall_forall in Hstr. destruct (Hstr a Ha) as [u Hu].
          congruence.
    - f_equal. eapply sorted_Raise. eassumption. }
  split; [exact E|].
  unfold iter_unique_path_by_attribute. rewrite E. reflexivity.
Qed.

Lemma timestamps_of_two_kinds_raise_TypeError_witness :
  iter_chronologically [in_US (PInt 100); in_FR (PStr "200")]
    _default_filter_func _default_key_func
  = Raise TypeError
  /\ iter_unique_path_by_attribute near_two_cities attr_country
       [in_US (PInt 100); in_FR (PStr "200")]
       _default_filter_func _default_key_func
     = ([], Some TypeError).
Proof.
  apply (timestamps_of_two_kinds_raise_TypeError near_two_cities attr_country
           [in_US (PInt 100); in_FR (PStr "200")]
           (in_US (PInt 100)) (in_FR (PStr "200"))).
  - apply elem_of_cons. left. reflexivity.
  - apply elem_of_cons. right. apply elem_of_cons. left. reflexivity.
  - exists 100. reflexivity.
  - exists "200". reflexivity.
Defined.

(** ** The gazetteer *)

Section GazetteerFacts.
Import reverse_geocode.

(** *** The loop that writes the countries *)

Lemma with_country_lookup_ne (countries : gmap string string)
    (loc : location) (k : string) :
  k <> "country" -> with_country countries loc !! k = loc !! k.
Proof.
  intros Hk. unfold with_country.
  destruct (loc !! "country_code"); [|reflexivity].
  apply lookup_insert_ne. congruence.
Qed.

Lemma with_country_idemp (countries : gmap string string) (loc : location) :
  with_country countries (with_country countries loc)
  = with_country countries loc.
Proof.
  unfold with_country at 1.
  rewrite with_country_lookup_ne by discriminate.
  unfold with_country.
  destruct (loc !! "country_code"); [|reflexivity].
  apply insert_insert_eq.
Qed.

(** Whatever the indices, the loop keeps the number of stored locations
    and every key of every location other than ["country"]. *)
Lemma set_countries_frame (countries : gmap string string)
    (indices : list nat) (locs : list location) :
  length (set_countries countries indices locs).2 = length locs
  /\ forall (i : nat) (k : string), k <> "country" ->
       (set_countries countries indices locs).2 !! i
         ≫= (fun loc : location => loc !! k)
       = locs !! i ≫= (fun loc : location => loc !! k).
Proof.
  revert locs. induction indices as [|index indices IH]; intros locs; simpl.
  - split; reflexivity.
  - destruct (locs !! index) as [result|] eqn:Hr; [|split; reflexivity].
    destruct (result !! "country_code") as [code|]; [|split; reflexivity].
    destruct (IH (<[index := <["country" := default "" (countries !! code)]>
                              result]> locs)) as [Hlen Hkeep].
    split.
    + rewrite Hlen. apply length_insert.
    + intros i k Hk. rewrite (Hkeep i k Hk).
      destruct (decide (i = index)) as [->|Hne].
      * rewrite list_lookup_insert_eq by (eapply lookup_lt_Some; eassumption).
        rewrite Hr. simpl. apply lookup_insert_ne. congruence.
      * rewrite list_lookup_insert_ne by congruence. reflexivity.
Qed.

(** When every index names a stored location that has a country code,
    the loop ends normally, the locations it visits get their country,
    and the others are untouched. *)
Lemma set_countries_ok (countries : gmap string string)
    (indices : list nat) (locs : list location) :
  (forall i, i ∈ indices ->
     exists loc, locs !! i = Some loc /\ is_Some (loc !! "country_code")) ->
  exists locs',
    set_countries countries indices locs = (Ok tt, locs')
    /\ (forall i, i ∈ indices ->
          locs' !! i = with_country countries <$> locs !! i)
    /\ (forall i, i ∉ indices -> locs' !! i = locs !! i).
Proof.
  revert locs. induction indices as [|index indices IH]; intros locs Hpre.
  - exists locs. split; [reflexivity|]. split.
    + intros i Hi. apply elem_of_nil in Hi. destruct Hi.
    + reflexivity.
  - destruct (Hpre index) as (result & Hr & [code Hcode]);
      [apply elem_of_cons; auto|].
    simpl. rewrite Hr, Hcode.
    set (stamped := <["country" := default "" (countries !! code)]> result).
    assert (stamped = with_country countries result) as Hst
      by (unfold with_country; rewrite Hcode; reflexivity).
    assert (index < length locs)%nat as Hlt
      by (eapply lookup_lt_Some; eassumption).
    destruct (IH (<[index := stamped]> locs)) as (locs' & E & Hin & Hout).
    { intros i Hi. destruct (decide (i = index)) as [->|Hne].
      - exists stamped. rewrite list_lookup_insert_eq by assumption.
        split; [reflexivity|]. exists code. unfold stamped.
        rewrite lookup_insert_ne by discriminate. assumption.
      - rewrite list_lookup_insert_ne by congruence.
        apply Hpre. apply elem_of_cons. auto. }
    exists locs'. split; [exact E|]. split.
    + intros i Hi. destruct (decide (i ∈ indices)) as [Hi'|Hi'].
      * rewrite (Hin i Hi'). destruct (decide (i = index)) as [->|Hne].
        -- rewrite list_lookup_insert_eq by assumption. rewrite Hr. simpl.
           rewrite Hst, with_country_idemp. reflexivity.
        -- rewrite list_lookup_insert_ne by congruence. reflexivity.
      * apply elem_of_cons in Hi as [->|Hi]; [|contradiction].
        rewrite (Hout index Hi').
        rewrite list_lookup_insert_eq by assumption. rewrite Hr. simpl.
        rewrite Hst. reflexivity.
    + intros i Hi. apply not_elem_of_cons in Hi as [Hne Hi].
      rewrite (Hout i Hi). apply list_lookup_insert_ne. congruence.
Qed.

(** *** [query] *)

Lemma Forall2_impl_elem_of {A B : Type} (R R' : A -> B -> Prop)
    (l : list A) (k : list B) :
  Forall2 R l k -> (forall x y, x ∈ l -> R x y -> R' x y) -> Forall2 R' l k.
Proof.
  induction 1 as [|x y l k Hxy HF IH]; intros Himpl; constructor.
  - apply Himpl; [apply elem_of_cons; auto | assumption].
  - apply IH. intros x' y' Hx'. apply Himpl. apply elem_of_cons. auto.
Qed.

(** A search that raises makes [query] raise [ValueError]; the gazetteer
    is not written. *)
Lemma query_search_raises (self : GeocodeData) (coordinates : list (list Q))
    (e : exn) :
  kd_query (tree self) coordinates = Raise e ->
  query self coordinates = (Raise ValueError, self).
Proof. intros E. unfold query. rewrite E. reflexivity. Qed.

(** A search that answers with a bare [int] gives one empty record. *)
Lemma query_int_index (self : GeocodeData) (coordinates : list (list Q))
    (index : nat) :
  kd_query (tree self) coordinates = Ok (int_index index) ->
  query self coordinates = (Ok [∅], self).
Proof. intros E. unfold query. rewrite E. reflexivity. Qed.

(** A search that answers with indices of stored locations gives, for
    each index, the stored location with its country. *)
Lemma query_index_array (self : GeocodeData) (coordinates : list (list Q))
    (indices : list nat) :
  kd_query (tree self) coordinates = Ok (index_array indices) ->
  (forall i, i ∈ indices ->
     exists loc, locations self !! i = Some loc
                 /\ is_Some (loc !! "country_code")) ->
  exists results,
    (query self coordinates).1 = Ok results
    /\ Forall2 (fun i r => with_country (countries self)
                             <$> locations self !! i = Some r)
               indices results.
Proof.
  intros E Hpre. unfold query. rewrite E.
  destruct (mapM (fun index => locations self !! index) indices)
    as [stored|] eqn:Hstored.
  - destruct (set_countries_ok (countries self) indices (locations self) Hpre)
      as (locs' & Eset & Hin & _).
    rewrite Eset. simpl.
    destruct (mapM_is_Some_2 (fun index => locs' !! index) indices)
      as [results Hres].
    { apply Forall_forall. intros i Hi. simpl. rewrite (Hin i Hi).
      destruct (Hpre i Hi) as (loc & -> & _). simpl. eauto. }
    rewrite Hres. exists results. split; [reflexivity|].
    apply mapM_Some_1 in Hres.
    apply (Forall2_impl_elem_of _ _ _ _ Hres).
    intros i r Hi Hr. rewrite <- (Hin i Hi). exact Hr.
  - exfalso. apply mapM_None_1 in Hstored. apply Exists_exists in Hstored
      as (i & Hi & Hnone).
    destruct (Hpre i Hi) as (loc & Hloc & _). congruence.
Qed.

(** [query] leaves the index and the country table as they are, and of
    the stored locations it changes at most the ["country"] key. *)
Lemma query_frame (self : GeocodeData) (coordinates : list (list Q)) :
  tree (query self coordinates).2 = tree self
  /\ countries (query self coordinates).2 = countries self
  /\ length (locations (query self coordinates).2) = length (locations self)
  /\ forall (i : nat) (k : string), k <> "country" ->
       locations (query self coordinates).2 !! i
         ≫= (fun loc : location => loc !! k)
       = locations self !! i ≫= (fun loc : location => loc !! k).
Proof.
  unfold query.
  destruct (kd_query (tree self) coordinates) as [[index|indices]|e];
    simpl; try (repeat split; reflexivity).
  destruct (mapM _ indices); simpl; try (repeat split; reflexivity).
  pose proof (set_countries_frame (countries self) indices (locations self))
    as [Hlen Hkeep].
  destruct (set_countries (countries self) indices (locations self))
    as [r locs']. simpl in *.
  repeat split; assumption.
Qed.

(** C4 (as amended). Whenever the nearest-neighbour search raises, on
    an empty or malformed set of query points as on any other, [query]
    raises [ValueError] and leaves the gazetteer as it is.  When the search
    answers with a bare [int], [query] answers with one empty record.
    When it answers with indices of stored locations, [query] answers with
    these locations, each with the country the table gives for its code
    (the empty string when the table has none). *)
Theorem query_outcomes (self : GeocodeData) (coordinates : list (list Q)) :
  (forall e, kd_query (tree self) coordinates = Raise e ->
     query self coordinates = (Raise ValueError, self))
  /\ (forall index, kd_query (tree self) coordinates = Ok (int_index index) ->
        query self coordinates = (Ok [∅], self))
  /\ (forall indices,
        kd_query (tree self) coordinates = Ok (index_array indices) ->
        (forall i, i ∈ indices ->
           exists loc, locations self !! i = Some loc
                       /\ is_Some (loc !! "country_code")) ->
        exists results,
          (query self coordinates).1 = Ok results
          /\ Forall2 (fun i r => with_country (countries self)
                                   <$> locations self !! i = Some r)
                     indices results).
Proof.
  split; [|split].
  - intros e. apply query_search_raises.
  - intros index. apply query_int_index.
  - intros indices. apply query_index_array.
Qed.

Lemma query_outcomes_witness :
  query origin_gazetteer [[1%Q; 2%Q; 3%Q]]
  = (Raise ValueError, origin_gazetteer)
  /\ exists results,
       (query origin_gazetteer [[0%Q; 0%Q]]).1 = Ok results
       /\ Forall2 (fun i r => with_country (countries origin_gazetteer)
                                <$> locations origin_gazetteer !! i = Some r)
                  [0%nat] results.
Proof.
  split.
  - apply (proj1 (query_outcomes origin_gazetteer [[1%Q; 2%Q; 3%Q]])
             ValueError).
    reflexivity.
  - apply (proj2 (proj2 (query_outcomes origin_gazetteer [[0%Q; 0%Q]]))
             [0%nat]).
    + reflexivity.
    + intros i Hi. apply list_elem_of_singleton in Hi as ->.
      eexists. split; [reflexivity|]. eexists. reflexivity.
Defined.

(** An empty set of query points, and a search that fails for a reason
    of its own: [query] raises [ValueError] both times. *)
Lemma query_outcomes_counterexample :
  (query origin_gazetteer []).1 = Raise ValueError
  /\ (query {| tree := failing_index;
               locations := locations origin_gazetteer;
               countries := countries origin_gazetteer |}
            [[0%Q; 0%Q]]).1
     = Raise ValueError.
Proof. split; reflexivity. Qed.

(** *** The gazetteer built from the rows, before and after queries *)

Lemma extract_rows (rows : list row) :
  extract rows = (map row_coordinates rows, map base_location rows).
Proof.
  unfold extract. f_equal; apply map_ext; intros [[[lat lon] cc] cty];
    reflexivity.
Qed.

Lemma base_location_code (r : row) :
  base_location r !! "country_code" = Some r.1.2.
Proof. destruct r as [[[lat lon] cc] cty]. reflexivity. Qed.

Lemma with_country_base (countries : gmap string string) (r : row) :
  with_country countries (base_location r)
  = <["country" := default "" (countries !! r.1.2)]> (base_location r).
Proof. unfold with_country. rewrite base_location_code. reflexivity. Qed.

(** The loop replaces a stored location by itself with its country, or
    leaves it. *)
Lemma set_countries_lookup (countries : gmap string string)
    (indices : list nat) (locs : list location) (i : nat) (loc' : location) :
  (set_countries countries indices locs).2 !! i = Some loc' ->
  exists loc, locs !! i = Some loc
              /\ (loc' = loc \/ loc' = with_country countries loc).
Proof.
  revert locs. induction indices as [|index indices IH]; intros locs; simpl.
  - intros Hi. eauto.
  - destruct (locs !! index) as [result|] eqn:Hr; [|simpl; eauto].
    destruct (result !! "country_code") as [code|] eqn:Hcode; [|simpl; eauto].
    intros Hi. apply IH in Hi as (loc1 & H1 & Hloc').
    assert (<["country" := default "" (countries !! code)]> result
            = with_country countries result) as Hst
      by (unfold with_country; rewrite Hcode; reflexivity).
    rewrite Hst in H1.
    destruct (decide (i = index)) as [->|Hne].
    + rewrite list_lookup_insert_eq in H1
        by (eapply lookup_lt_Some; eassumption).
      injection H1 as <-. exists result. split; [assumption|].
      right. destruct Hloc' as [->| ->]; [|rewrite with_country_idemp];
        reflexivity.
    + rewrite list_lookup_insert_ne in H1 by congruence. eauto.
Qed.

Lemma gazetteer_of_init (KDTree_new : list (Q * Q) -> KDTree)
    (rows : list row) (country_rows : list (string * string)) :
  gazetteer_of KDTree_new rows country_rows
    (GeocodeData_init KDTree_new rows country_rows).
Proof.
  unfold gazetteer_of, GeocodeData_init. rewrite extract_rows. simpl.
  split; [reflexivity|]. split; [reflexivity|].
  apply Forall2_fmap_r. apply Forall_Forall2_diag.
  apply Forall_forall. auto.
Qed.

Lemma gazetteer_of_query (KDTree_new : list (Q * Q) -> KDTree)
    (rows : list row) (country_rows : list (string * string))
    (gd : GeocodeData) (coordinates : list (list Q)) :
  gazetteer_of KDTree_new rows country_rows gd ->
  gazetteer_of KDTree_new rows country_rows (query gd coordinates).2.
Proof.
  intros (Ht & Hc & Hs).
  destruct (query_frame gd coordinates) as (Ht' & Hc' & Hlen & _).
  split; [congruence|]. split; [congruence|].
  rewrite Hc'. apply Forall2_same_length_lookup_2.
  - rewrite Hlen. eapply Forall2_length. eassumption.
  - intros i r loc' Hr Hloc'.
    assert (exists loc, locations gd !! i = Some loc
                        /\ (loc' = loc
                            \/ loc' = with_country (countries gd) loc))
      as (loc & Hloc & Hrel).
    { revert Hloc'. unfold query.
      destruct (kd_query (tree gd) coordinates) as [[index|indices]|e];
        simpl; eauto.
      destruct (mapM _ indices); simpl; eauto.
      pose proof (set_countries_lookup (countries gd) indices (locations gd)
                    i loc') as Hset.
      destruct (set_countries (countries gd) indices (locations gd))
        as [res locs']. simpl in *. exact Hset. }
    destruct (Forall2_lookup_lr _ _ _ _ _ _ Hs Hr Hloc) as [->| ->];
      destruct Hrel as [->| ->]; rewrite ?with_country_idemp; auto.
Qed.

(** The stored location of a row, read with its country, is the row's
    location with its country, whether or not a query has written it. *)
Lemma gazetteer_of_lookup (KDTree_new : list (Q * Q) -> KDTree)
    (rows : list row) (country_rows : list (string * string))
    (gd : GeocodeData) (i : nat) :
  gazetteer_of KDTree_new rows country_rows gd ->
  with_country (countries gd) <$> locations gd !! i
  = (fun r => with_country (load_countries country_rows ∅) (base_location r))
      <$> rows !! i.
Proof.
  intros (Ht & Hc & Hs). rewrite <- Hc.
  destruct (rows !! i) as [r|] eqn:Hr.
  - destruct (Forall2_lookup_l _ _ _ _ _ Hs Hr) as (loc & Hloc & Hrel).
    rewrite Hloc. simpl. f_equal.
    destruct Hrel as [->| ->]; rewrite ?with_country_idemp; reflexivity.
  - apply lookup_ge_None in Hr.
    rewrite (Forall2_length _ _ _ Hs) in Hr.
    apply lookup_ge_None in Hr. rewrite Hr. reflexivity.
Qed.

(** The answer of [query] read off the rows: it does not depend on the
    queries made before. *)
Lemma query_of_rows (KDTree_new : list (Q * Q) -> KDTree)
    (rows : list row) (country_rows : list (string * string))
    (gd : GeocodeData) (coordinates : list (list Q)) :
  gazetteer_of KDTree_new rows country_rows gd ->
  (query gd coordinates).1
  = match kd_query (KDTree_new (extract rows).1) coordinates with
    | Raise _ => Raise ValueError
    | Ok (int_index _) => Ok [∅]
    | Ok (index_array indices) =>
        match mapM (fun i => rows !! i) indices with
        | Some rs =>
            Ok ((fun r => with_country (load_countries country_rows ∅)
                            (base_location r)) <$> rs)
        | None => Raise IndexError
        end
    end.
Proof.
  intros Hgd. pose proof Hgd as (Ht & Hc & Hs).
  unfold query. rewrite Ht.
  destruct (kd_query (KDTree_new (extract rows).1) coordinates)
    as [[index|indices]|e]; try reflexivity.
  destruct (mapM (fun i => rows !! i) indices) as [rs|] eqn:Hrs.
  - apply mapM_Some_1 in Hrs.
    assert (forall i, i ∈ indices -> exists r, rows !! i = Some r) as Hrow.
    { intros i Hi. apply list_elem_of_lookup in Hi as [n Hn].
      destruct (Forall2_lookup_l _ _ _ _ _ Hrs Hn) as (r & _ & Hr). eauto. }
    assert (forall i, i ∈ indices ->
              exists loc, locations gd !! i = Some loc
                          /\ is_Some (loc !! "country_code")) as Hpre.
    { intros i Hi. destruct (Hrow i Hi) as [r Hr].
      destruct (Forall2_lookup_l _ _ _ _ _ Hs Hr) as (loc & Hloc & Hrel).
      exists loc. split; [assumption|]. exists r.1.2.
      destruct Hrel as [->| ->];
        rewrite ?with_country_lookup_ne by discriminate;
        apply base_location_code. }
    destruct (mapM_is_Some_2 (fun i => locations gd !! i) indices)
      as [stored Hstored].
    { apply Forall_forall. intros i Hi. simpl.
      destruct (Hpre i Hi) as (loc & -> & _). eauto. }
    rewrite Hstored.
    destruct (set_countries_ok (countries gd) indices (locations gd) Hpre)
      as (locs' & Eset & Hin & _).
    rewrite Eset. simpl.
    rewrite (mapM_Some_2 (fun index => locs' !! index) indices
               ((fun r => with_country (load_countries country_rows ∅)
                            (base_location r)) <$> rs)); [reflexivity|].
    apply Forall2_fmap_r.
    apply (Forall2_impl_elem_of _ _ _ _ Hrs).
    intros i r Hi Hr. rewrite (Hin i Hi).
    rewrite (gazetteer_of_lookup KDTree_new rows country_rows gd i Hgd).
    rewrite Hr. reflexivity.
  - apply mapM_None_1 in Hrs. apply Exists_exists in Hrs as (i & Hi & Hnone).
    rewrite (mapM_None_2 (fun i => locations gd !! i) indices); [reflexivity|].
    apply Exists_exists. exists i. split; [assumption|].
    apply lookup_ge_None in Hnone. apply lookup_ge_None.
    rewrite <- (Forall2_length _ _ _ Hs). assumption.
Qed.

(** [reverse_coordinates] answers the same on first use and after any
    number of queries, and keeps the instance a gazetteer of the rows. *)
Lemma reverse_coordinates_stable (KDTree_new : list (Q * Q) -> KDTree)
    (rows : list row) (country_rows : list (string * string))
    (coordinate : Q * Q) (_instance : option GeocodeData) :
  (forall gd, _instance = Some gd ->
     gazetteer_of KDTree_new rows country_rows gd) ->
  (reverse_coordinates KDTree_new rows country_rows coordinate _instance).1
  = (reverse_coordinates KDTree_new rows country_rows coordinate None).1
  /\ exists gd',
       (reverse_coordinates KDTree_new rows country_rows coordinate
          _instance).2 = Some gd'
       /\ gazetteer_of KDTree_new rows country_rows gd'.
Proof.
  intros Hinst. unfold reverse_coordinates.
  pose proof (gazetteer_of_init KDTree_new rows country_rows) as Hinit.
  assert (gazetteer_of KDTree_new rows country_rows
            (Singleton_call KDTree_new rows country_rows _instance).1) as Hgd
    by (destruct _instance as [gd|]; simpl; auto).
  destruct (Singleton_call KDTree_new rows country_rows _instance)
    as [gd inst'].
  simpl in Hgd. simpl Singleton_call. cbv iota beta.
  pose proof (query_of_rows KDTree_new rows country_rows gd
                [[coordinate.1; coordinate.2]] Hgd) as E1.
  pose proof (query_of_rows KDTree_new rows country_rows _
                [[coordinate.1; coordinate.2]] Hinit) as E2.
  pose proof (gazetteer_of_query KDTree_new rows country_rows gd
                [[coordinate.1; coordinate.2]] Hgd) as Hgd'.
  destruct (query gd [[coordinate.1; coordinate.2]]) as [r gd'].
  destruct (query (GeocodeData_init KDTree_new rows country_rows)
              [[coordinate.1; coordinate.2]]) as [r0 gd0].
  simpl in *. split; [congruence | eauto].
Qed.

(** A search that answers with indices of stored locations makes [query]
    return the stored locations themselves, as the call leaves them: each
    is the location stored before with its ["country"] written; the
    locations at other indices are untouched. *)
Lemma query_index_array_stored (self : GeocodeData)
    (coordinates : list (list Q)) (indices : list nat) :
  kd_query (tree self) coordinates = Ok (index_array indices) ->
  (forall i, i ∈ indices ->
     exists loc, locations self !! i = Some loc
                 /\ is_Some (loc !! "country_code")) ->
  exists results,
    (query self coordinates).1 = Ok results
    /\ Forall2 (fun i r =>
                  locations (query self coordinates).2 !! i = Some r
                  /\ exists loc code,
                       locations self !! i = Some loc
                       /\ loc !! "country_code" = Some code
                       /\ r = <["country" :=
                                  default "" (countries self !! code)]> loc)
               indices results
    /\ (forall i, i ∉ indices ->
          locations (query self coordinates).2 !! i = locations self !! i).
Proof.
  intros E Hpre. unfold query. rewrite E.
  destruct (mapM (fun index => locations self !! index) indices)
    as [stored|] eqn:Hstored.
  - destruct (set_countries_ok (countries self) indices (locations self) Hpre)
      as (locs' & Eset & Hin & Hout).
    rewrite Eset. simpl.
    destruct (mapM_is_Some_2 (fun index => locs' !! index) indices)
      as [results Hres].
    { apply Forall_forall. intros i Hi. simpl. rewrite (Hin i Hi).
      destruct (Hpre i Hi) as (loc & -> & _). simpl. eauto. }
    rewrite Hres. exists results. split; [reflexivity|].
    split; [|exact Hout].
    apply mapM_Some_1 in Hres.
    apply (Forall2_impl_elem_of _ _ _ _ Hres).
    intros i r Hi Hr. split; [exact Hr|].
    destruct (Hpre i Hi) as (loc & Hloc & [code Hcode]).
    exists loc, code. split; [assumption|]. split; [assumption|].
    rewrite (Hin i Hi), Hloc in Hr. simpl in Hr. injection Hr as <-.
    unfold with_country. rewrite Hcode. reflexivity.
  - exfalso. apply mapM_None_1 in Hstored. apply Exists_exists in Hstored
      as (i & Hi & Hnone).
    destruct (Hpre i Hi) as (loc & Hloc & _). congruence.
Qed.

(** On a gazetteer of the rows, as first built or as any number of
    queries left it, [query] answers what the gazetteer just built
    answers. *)
Lemma query_as_first_built (KDTree_new : list (Q * Q) -> KDTree)
    (rows : list row) (country_rows : list (string * string))
    (gd : GeocodeData) (coordinates : list (list Q)) :
  gazetteer_of KDTree_new rows country_rows gd ->
  (query gd coordinates).1
  = (query (GeocodeData_init KDTree_new rows country_rows) coordinates).1.
Proof.
  intros Hgd.
  rewrite (query_of_rows KDTree_new rows country_rows gd coordinates Hgd).
  rewrite (query_of_rows KDTree_new rows country_rows _ coordinates
             (gazetteer_of_init KDTree_new rows country_rows)).
  reflexivity.
Qed.

(** C5 (as amended). Queries are not read-only, but what they write is
    confined and does not show in the answers.

    - A query never changes the spatial index or the country table, nor
      the number of stored locations, nor any key of a stored location
      other than ["country"].
    - A query whose search answers with indices of stored locations
      returns the stored locations themselves and writes into each of them
      its ["country"], the name the table gives for its country code (the
      empty string when it gives none); the other stored locations are
      untouched.
    - On a gazetteer of the rows, as first built or as earlier queries
      left it, a query answers what the gazetteer just built answers, and
      leaves a gazetteer of the rows.
    - Once a call of the singleton has returned an instance, that instance
      is stored and every later call returns it without constructing; a
      first call ends with an exception only when the construction raises
      it, and then nothing is stored, so the next call constructs again.
      A construction that returns is stored on first use. *)
Theorem query_writes_only_the_country (self : GeocodeData)
    (coordinates : list (list Q)) :
  tree (query self coordinates).2 = tree self
  /\ countries (query self coordinates).2 = countries self
  /\ length (locations (query self coordinates).2) = length (locations self)
  /\ (forall (i : nat) (k : string), k <> "country" ->
        locations (query self coordinates).2 !! i
          ≫= (fun loc : location => loc !! k)
        = locations self !! i ≫= (fun loc : location => loc !! k))
  /\ (forall indices,
        kd_query (tree self) coordinates = Ok (index_array indices) ->
        (forall i, i ∈ indices ->
           exists loc, locations self !! i = Some loc
                       /\ is_Some (loc !! "country_code")) ->
        exists results,
          (query self coordinates).1 = Ok results
          /\ Forall2 (fun i r =>
                        locations (query self coordinates).2 !! i = Some r
                        /\ exists loc code,
                             locations self !! i = Some loc
                             /\ loc !! "country_code" = Some code
                             /\ r = <["country" :=
                                        default ""
                                          (countries self !! code)]> loc)
                     indices results
          /\ (forall i, i ∉ indices ->
                locations (query self coordinates).2 !! i
                = locations self !! i))
  /\ (forall KDTree_new geocode_rows country_rows,
        gazetteer_of KDTree_new geocode_rows country_rows self ->
        (query self coordinates).1
        = (query (GeocodeData_init KDTree_new geocode_rows country_rows)
             coordinates).1
        /\ gazetteer_of KDTree_new geocode_rows country_rows
             (query self coordinates).2)
  /\ (forall (E : Type) (construct later : GeocodeData + E)
             (_instance : option GeocodeData) (gd : GeocodeData),
        (Singleton_call_raising construct _instance).1 = inl gd ->
        Singleton_call_raising later
          (Singleton_call_raising construct _instance).2
        = (inl gd, Some gd))
  /\ (forall (E : Type) (construct : GeocodeData + E) (e : E),
        (Singleton_call_raising construct None).1 = inr e ->
        construct = inr e
        /\ (Singleton_call_raising construct None).2 = None)
  /\ (forall (E : Type) (gd : GeocodeData),
        Singleton_call_raising (E:=E) (inl gd) None = (inl gd, Some gd))
  /\ (forall (E : Type) KDTree_new geocode_rows country_rows _instance,
        Singleton_call_raising (E:=E)
          (inl (GeocodeData_init KDTree_new geocode_rows country_rows))
          _instance
        = (inl (Singleton_call KDTree_new geocode_rows country_rows
                  _instance).1,
           (Singleton_call KDTree_new geocode_rows country_rows
              _instance).2)).
Proof.
  destruct (query_frame self coordinates) as (Ht & Hc & Hl & Hk).
  do 4 (split; [assumption|]).
  split; [intros indices; apply query_index_array_stored|].
  split.
  { intros KDTree_new geocode_rows country_rows Hgd.
    split; [apply query_as_first_built | apply gazetteer_of_query];
      assumption. }
  split.
  { intros E construct later [gd'|] gd; simpl.
    - intros [= ->]. reflexivity.
    - destruct construct as [gd'|e]; simpl; [|discriminate].
      intros [= ->]. reflexivity. }
  split.
  { intros E [gd|e'] e; simpl; [discriminate|].
    intros [= ->]. split; reflexivity. }
  split; [reflexivity|].
  intros E KDTree_new geocode_rows country_rows [gd|]; reflexivity.
Qed.

(** The city of the origin entry is still there after a query. *)
Lemma query_writes_only_the_country_witness :
  locations (query origin_gazetteer [[0%Q; 0%Q]]).2 !! 0%nat
    ≫= (fun loc : location => loc !! "city")
  = Some "Origin".
Proof.
  destruct (query_writes_only_the_country origin_gazetteer [[0%Q; 0%Q]])
    as (_ & _ & _ & Hkeep & _).
  rewrite (Hkeep 0%nat "city"); [reflexivity | discriminate].
Defined.

(** The stored origin entry has no ["country"] before a query and has
    one after it. *)
Lemma query_writes_only_the_country_counterexample :
  locations origin_gazetteer !! 0%nat
    ≫= (fun loc : location => loc !! "country")
  = None
  /\ locations (query origin_gazetteer [[0%Q; 0%Q]]).2 !! 0%nat
       ≫= (fun loc : location => loc !! "country")
     = Some "Originland".
Proof. split; reflexivity. Qed.

(** *** Nearest neighbours *)

Lemma dist2_same (x : Q * Q) : (dist2 x x == 0)%Q.
Proof. unfold dist2. ring. Qed.

Lemma dist2_zero (p x : Q * Q) :
  (dist2 p x <= 0)%Q -> (p.1 == x.1)%Q /\ (p.2 == x.2)%Q.
Proof.
  unfold dist2. destruct p as [p1 p2], x as [x1 x2]. simpl.
  set (a := (p1 - x1)%Q). set (b := (p2 - x2)%Q). intros Hd.
  assert ((a == 0)%Q /\ (b == 0)%Q) as [Ha Hb] by (split; nra).
  unfold a, b in Ha, Hb. split; lra.
Qed.

Lemma nearest_from_spec (x : Q * Q) (data : list (Q * Q)) :
  forall (i : nat) (best : nat * Q),
    (nearest_from x data i best = best.1
     /\ forall q, q ∈ data -> (best.2 <= dist2 q x)%Q)
    \/ (exists j p,
          data !! j = Some p
          /\ nearest_from x data i best = (i + j)%nat
          /\ (dist2 p x < best.2)%Q
          /\ forall q, q ∈ data -> (dist2 p x <= dist2 q x)%Q).
Proof.
  induction data as [|p data IH]; intros i best; simpl.
  - left. split; [reflexivity|]. intros q Hq. apply elem_of_nil in Hq.
    destruct Hq.
  - destruct (Qlt_le_dec (dist2 p x) best.2) as [Hlt|Hle].
    + right.
      destruct (IH (S i) (i, dist2 p x))
        as [[E Hall] | (j & p' & Hj & E & Hlt' & Hall)]; simpl in *.
      * exists 0%nat, p. split; [reflexivity|]. split; [rewrite E; lia|].
        split; [assumption|]. intros q Hq.
        apply elem_of_cons in Hq as [->|Hq]; [apply Qle_refl | auto].
      * exists (S j), p'. split; [assumption|]. split; [rewrite E; lia|].
        split; [eapply Qlt_trans; eassumption|]. intros q Hq.
        apply elem_of_cons in Hq as [->|Hq]; [apply Qlt_le_weak; assumption | auto].
    + destruct (IH (S i) best)
        as [[E Hall] | (j & p' & Hj & E & Hlt' & Hall)].
      * left. split; [assumption|]. intros q Hq.
        apply elem_of_cons in Hq as [->|Hq]; auto.
      * right. exists (S j), p'. split; [assumption|].
        split; [rewrite E; lia|]. split; [assumption|]. intros q Hq.
        apply elem_of_cons in Hq as [->|Hq]; [|auto].
        apply Qlt_le_weak. eapply Qlt_le_trans; eassumption.
Qed.

Lemma nearest_spec (data : list (Q * Q)) (x : Q * Q) :
  data <> [] ->
  exists i p, nearest data x = Some i /\ data !! i = Some p
              /\ forall q, q ∈ data -> (dist2 p x <= dist2 q x)%Q.
Proof.
  destruct data as [|p0 data]; [congruence|]. intros _. simpl.
  destruct (nearest_from_spec x data 1 (0%nat, dist2 p0 x))
    as [[E Hall] | (j & p & Hj & E & Hlt & Hall)]; simpl in *.
  - exists 0%nat, p0. rewrite E. split; [reflexivity|].
    split; [reflexivity|]. intros q Hq.
    apply elem_of_cons in Hq as [->|Hq]; [apply Qle_refl | auto].
  - exists (S j), p. rewrite E. split; [reflexivity|].
    split; [assumption|]. intros q Hq.
    apply elem_of_cons in Hq as [->|Hq]; [apply Qlt_le_weak; assumption | auto].
Qed.

(** The modelled index answers with a nearest reference point. *)
Lemma cKDTree_nearest_neighbour : nearest_neighbour cKDTree.
Proof.
  intros data x Hdata.
  destruct (nearest_spec data x Hdata) as (i & p & Hn & Hp & Hall).
  exists i, p. split; [|auto].
  destruct x as [x1 x2]. simpl. rewrite Hn. reflexivity.
Qed.

Lemma reverse_coordinates_first_use (KDTree_new : list (Q * Q) -> KDTree)
    (rows : list row) (country_rows : list (string * string))
    (coordinate : Q * Q) :
  (reverse_coordinates KDTree_new rows country_rows coordinate None).1
  = (results <- (query (GeocodeData_init KDTree_new rows country_rows)
                   [[coordinate.1; coordinate.2]]).1 ;;
     index_list results 0).
Proof.
  unfold reverse_coordinates. simpl.
  destruct (query _ _) as [r gd']. reflexivity.
Qed.

(** With an index that answers with a nearest reference point,
    [reverse_coordinates] answers with the location of a row that no other
    row is nearer than, with its country. *)
Lemma reverse_coordinates_nearest (KDTree_new : list (Q * Q) -> KDTree)
    (rows : list row) (country_rows : list (string * string))
    (coordinate : Q * Q) (_instance : option GeocodeData) :
  nearest_neighbour KDTree_new ->
  rows <> [] ->
  (forall gd, _instance = Some gd ->
     gazetteer_of KDTree_new rows country_rows gd) ->
  exists i r,
    rows !! i = Some r
    /\ (forall r', r' ∈ rows ->
          (dist2 (row_coordinates r) coordinate
           <= dist2 (row_coordinates r') coordinate)%Q)
    /\ (reverse_coordinates KDTree_new rows country_rows coordinate
          _instance).1
       = Ok (with_country (load_countries country_rows ∅) (base_location r)).
Proof.
  intros Hnn Hrows Hinst.
  destruct (reverse_coordinates_stable KDTree_new rows country_rows
              coordinate _instance Hinst) as [-> _].
  rewrite reverse_coordinates_first_use.
  rewrite (query_of_rows KDTree_new rows country_rows _ _
             (gazetteer_of_init KDTree_new rows country_rows)).
  rewrite extract_rows. simpl.
  destruct (Hnn (map row_coordinates rows) coordinate)
    as (i & p & E & Hp & Hall).
  { destruct rows; [congruence | discriminate]. }
  rewrite E.
  change (map row_coordinates rows) with (row_coordinates <$> rows) in Hp.
  rewrite list_lookup_fmap in Hp.
  destruct (rows !! i) as [r|] eqn:Hr; [|discriminate].
  injection Hp as <-.
  exists i, r. split; [exact Hr|]. split.
  - intros r' Hr'. apply Hall.
    change (map row_coordinates rows) with (row_coordinates <$> rows).
    apply list_elem_of_fmap. eauto.
  - simpl. rewrite Hr. reflexivity.
Qed.

(** C9 (as amended). With an index that answers with a nearest reference
    point, and whether the gazetteer is built by this call or was queried
    before: querying the coordinates of a reference entry that no other
    entry shares returns that entry's city and country code, with the
    country the table gives for the code (the empty string when it gives
    none).  In particular the gazetteer of the single entry
    [(0.0, 0.0, "XX", "Origin")] with the table [{"XX": "Originland"}]
    answers the query [(0.001, 0.001)] with the city ["Origin"] and the
    country ["Originland"]. *)
Theorem exact_match_is_returned (KDTree_new : list (Q * Q) -> KDTree) :
  nearest_neighbour KDTree_new ->
  (forall (rows : list row) (country_rows : list (string * string))
          (_instance : option GeocodeData) (i : nat)
          (lat lon : Q) (cc cty : string),
      (forall gd, _instance = Some gd ->
         gazetteer_of KDTree_new rows country_rows gd) ->
      rows !! i = Some (lat, lon, cc, cty) ->
      (forall j r, rows !! j = Some r ->
         ((row_coordinates r).1 == lat)%Q ->
         ((row_coordinates r).2 == lon)%Q -> j = i) ->
      (reverse_coordinates KDTree_new rows country_rows (lat, lon)
         _instance).1
      = Ok (<["country" := default "" (load_countries country_rows ∅ !! cc)]>
              (<["country_code" := cc]> (<["city" := cty]> ∅))))
  /\ (forall _instance : option GeocodeData,
        (forall gd, _instance = Some gd ->
           gazetteer_of KDTree_new origin_rows origin_countries gd) ->
        (reverse_coordinates KDTree_new origin_rows origin_countries
           (1 # 1000, 1 # 1000)%Q _instance).1
        = Ok (<["country" := "Originland"]>
                (<["country_code" := "XX"]> (<["city" := "Origin"]> ∅)))).
Proof.
  intros Hnn. split.
  - intros rows country_rows _instance i lat lon cc cty Hinst Hi Huniq.
    destruct (reverse_coordinates_nearest KDTree_new rows country_rows
                (lat, lon) _instance Hnn) as (i' & r & Hr & Hmin & ->);
      [intros ->; discriminate | assumption |].
    assert ((lat, lon, cc, cty) ∈ rows) as Hin
      by (eapply list_elem_of_lookup_2; eassumption).
    specialize (Hmin _ Hin). simpl in Hmin.
    assert (dist2 (row_coordinates r) (lat, lon) <= 0)%Q as Hzero.
    { eapply Qle_trans; [exact Hmin|].
      rewrite (dist2_same (lat, lon)). apply Qle_refl. }
    apply dist2_zero in Hzero as [H1 H2]. simpl in H1, H2.
    assert (i' = i) as -> by (eapply Huniq; eassumption).
    pose proof (eq_trans (eq_sym Hr) Hi) as Heq. injection Heq as ->.
    rewrite with_country_base. reflexivity.
  - intros _instance Hinst.
    destruct (reverse_coordinates_nearest KDTree_new origin_rows
                origin_countries (1 # 1000, 1 # 1000)%Q _instance Hnn)
      as (i' & r & Hr & _ & ->); [discriminate | assumption |].
    destruct i' as [|i']; [|destruct i'; discriminate Hr].
    injection Hr as <-. reflexivity.
Qed.

(** The modelled index over the two cities, asked for the coordinates of
    Bourges. *)
Lemma exact_match_is_returned_witness :
  (reverse_coordinates cKDTree two_cities two_countries (47%Q, 2%Q) None).1
  = Ok (<["country" := "FR"]>
          (<["country_code" := "FR"]> (<["city" := "Bourges"]> ∅))).
Proof.
  apply (proj1 (exact_match_is_returned cKDTree cKDTree_nearest_neighbour)
           two_cities two_countries None 1%nat 47%Q 2%Q "FR" "Bourges").
  - intros gd Hgd. discriminate Hgd.
  - reflexivity.
  - intros j r Hj H1 H2.
    destruct j as [|[|j]]; [|reflexivity|destruct j; discriminate Hj].
    injection Hj as <-. vm_compute in H1. discriminate H1.
Defined.

(** Two reference entries at the same coordinates: the query for these
    coordinates answers with the first entry, so the entry ["Twin"], whose
    coordinates are the queried ones, is not the one returned. *)
Lemma exact_match_is_returned_counterexample :
  twin_rows !! 1%nat = Some (0%Q, 0%Q, "XX", "Twin")
  /\ (reverse_coordinates cKDTree twin_rows origin_countries (0%Q, 0%Q)
        None).1
     = Ok (<["country" := "Originland"]>
             (<["country_code" := "XX"]> (<["city" := "Origin"]> ∅))).
Proof. split; reflexivity. Qed.

(** The answers of [reverse_coordinates] do not depend on the queries
    made before: on a gazetteer of the rows, as first built or as any
    number of queries left it, the answer is the one given on first use,
    and the instance left behind is again a gazetteer of the rows. *)
Theorem answers_do_not_depend_on_earlier_queries
    (KDTree_new : list (Q * Q) -> KDTree)
    (rows : list row) (country_rows : list (string * string))
    (coordinate : Q * Q) (gd : GeocodeData) :
  gazetteer_of KDTree_new rows country_rows gd ->
  (reverse_coordinates KDTree_new rows country_rows coordinate (Some gd)).1
  = (reverse_coordinates KDTree_new rows country_rows coordinate None).1
  /\ exists gd',
       (reverse_coordinates KDTree_new rows country_rows coordinate
          (Some gd)).2 = Some gd'
       /\ gazetteer_of KDTree_new rows country_rows gd'.
Proof.
  intros Hgd. apply reverse_coordinates_stable. intros gd0 [= <-]. exact Hgd.
Qed.

(** The origin gazetteer after a query. *)
Lemma answers_do_not_depend_on_earlier_queries_witness :
  (reverse_coordinates cKDTree origin_rows origin_countries (1%Q, 1%Q)
     (Some (query origin_gazetteer [[0%Q; 0%Q]]).2)).1
  = (reverse_coordinates cKDTree origin_rows origin_countries (1%Q, 1%Q)
       None).1.
Proof.
  apply (answers_do_not_depend_on_earlier_queries cKDTree origin_rows
           origin_countries (1%Q, 1%Q)).
  apply gazetteer_of_query. apply gazetteer_of_init.
Defined.
(** *** The country table *)

Lemma load_countries_lookup_from (country_rows : list (string * string))
    (m : gmap string string) (code : string) :
  load_countries country_rows m !! code
  = match last (List.filter (fun cn => bool_decide (cn.1 = code))
                  country_rows) with
    | Some cn => Some cn.2
    | None => m !! code
    end.
Proof.
  unfold load_countries. revert m.
  induction country_rows as [|[c n] rows IH]; intros m; simpl.
  - reflexivity.
  - rewrite IH. destruct (bool_decide (c = code)) eqn:Hc; simpl.
    + apply bool_decide_eq_true in Hc as ->. rewrite last_cons.
      destruct (last _) as [cn|]; [reflexivity|].
      apply lookup_insert_eq.
    + apply bool_decide_eq_false in Hc.
      destruct (last _) as [cn|]; [reflexivity|].
      apply lookup_insert_ne. assumption.
Qed.

(** The country table gives, for a code, the name in the last row of
    [countries.csv] that has this code, and nothing for a code no row
    has; so the country [query] writes into a location is that name, or
    the empty string. *)
Theorem last_country_row_wins (country_rows : list (string * string))
    (code : string) (r : row) :
  load_countries country_rows ∅ !! code
  = (fun cn => cn.2)
      <$> last (List.filter (fun cn => bool_decide (cn.1 = code))
                  country_rows)
  /\ with_country (load_countries country_rows ∅) (base_location r)
       !! "country"
     = Some (default ""
               ((fun cn => cn.2)
                  <$> last (List.filter
                              (fun cn => bool_decide (cn.1 = r.1.2))
                              country_rows))).
Proof.
  assert (forall c, load_countries country_rows ∅ !! c
                    = (fun cn => cn.2)
                        <$> last (List.filter
                                    (fun cn => bool_decide (cn.1 = c))
                                    country_rows)) as Hlookup.
  { intros c. rewrite load_countries_lookup_from.
    destruct (last _); reflexivity. }
  split; [apply Hlookup|].
  rewrite with_country_base, lookup_insert_eq, Hlookup. reflexivity.
Qed.
End GazetteerFacts.

(** ** What every run of the segmenter keeps *)

Section SegmenterInvariants.
Variable geo : Q -> Q -> result Coordinate.

Lemma loop_changes_attribute (attr : attribute) (locs : list item)
    (indices : list nat) (st : loop_state) :
  Forall (changes_attribute attr) (loop geo attr locs indices st).1.
Proof.
  revert st. induction indices as [|index indices IH]; intros st; simpl.
  - constructor.
  - destruct (loop_body geo attr locs index st) as [[yielded st']|e] eqn:Hb;
      [|constructor].
    specialize (IH st').
    destruct (loop geo attr locs indices st') as [events ending].
    apply loop_body_Ok in Hb
      as (cur & nl & next & _ & _ & _ & _
          & [(_ & -> & _) | (Hne & tl & tn & _ & _ & -> & _)]);
      simpl in *; [assumption|].
    constructor; [|assumption].
    unfold changes_attribute. simpl. intros Heq.
    rewrite Heq, String.eqb_refl in Hne. discriminate.
Qed.

Lemma loop_entries_chain (attr : attribute) (locs : list item)
    (indices : list nat) :
  forall (st : loop_state) (entry : Z),
    timestamp (last_location st) = Ok entry ->
    entries_chain entry (loop geo attr locs indices st).1.
Proof.
  induction indices as [|index indices IH]; intros st entry Hentry; simpl.
  - exact I.
  - destruct (loop_body geo attr locs index st) as [[yielded st']|e] eqn:Hb;
      [|exact I].
    apply loop_body_Ok in Hb
      as (cur & nl & next & _ & _ & _ & _
          & [(_ & -> & Hlast) | (_ & tl & tn & Htl & Htn & -> & Hlast)]).
    + specialize (IH st' entry).
      destruct (loop geo attr locs indices st') as [events ending].
      simpl in *. apply IH. rewrite Hlast. assumption.
    + specialize (IH st' tn).
      destruct (loop geo attr locs indices st') as [events ending].
      simpl in *. split; [unfold previous_timestamp; simpl; congruence|].
      apply IH. rewrite Hlast. assumption.
Qed.

Lemma loop_reports_samples (attr : attribute) (locs : list item)
    (indices : list nat) (st : loop_state) :
  Forall (fun ev => exists it, it ∈ locs
                               /\ resolve geo it = Ok (next_node ev)
                               /\ timestamp it = Ok (next_timestamp ev))
         (loop geo attr locs indices st).1.
Proof.
  revert st. induction indices as [|index indices IH]; intros st; simpl.
  - constructor.
  - destruct (loop_body geo attr locs index st) as [[yielded st']|e] eqn:Hb;
      [|constructor].
    specialize (IH st').
    destruct (loop geo attr locs indices st') as [events ending].
    apply loop_body_Ok in Hb
      as (cur & nl & next & _ & Hnl & Hnext & _
          & [(_ & -> & _) | (_ & tl & tn & _ & Htn & -> & _)]);
      simpl in *; [assumption|].
    constructor; [|assumption].
    exists nl. split; [eapply list_elem_of_lookup_2; eassumption | auto].
Qed.

(** The segmenter never yields a transition between two places that agree
    on the watched attribute, whatever the input and however the run
    ends. *)
Theorem transitions_change_the_attribute {K : Type} `{PyLt K}
    (attr : attribute) (locations : list item)
    (filter_func : item -> bool) (key_func : item -> K) :
  Forall (changes_attribute attr)
    (iter_unique_path_by_attribute geo attr locations filter_func key_func).1.
Proof.
  unfold iter_unique_path_by_attribute.
  destruct (iter_chronologically locations filter_func key_func)
    as [locs|e]; [|constructor].
  unfold unique_path.
  destruct (initial geo locs) as [[[a c] t]|e]; [|constructor].
  pose proof (loop_changes_attribute attr locs (loop_indices (length locs))
    {| current_coordinate := None; current_location := None;
       last_coordinate := c; last_location := a |}) as Hloop.
  destruct (loop geo attr locs _ _) as [events ending]. simpl in *.
  constructor; [exact I | assumption].
Qed.

(** What a run yields is empty or starts with the initial tuple, and from
    then on every tuple's previous timestamp is the next timestamp of the
    tuple yielded before it. *)
Theorem previous_timestamps_chain {K : Type} `{PyLt K}
    (attr : attribute) (locations : list item)
    (filter_func : item -> bool) (key_func : item -> K) :
  (iter_unique_path_by_attribute geo attr locations filter_func key_func).1
  = []
  \/ exists c t events,
       (iter_unique_path_by_attribute geo attr locations filter_func
          key_func).1
       = (None, None, c, t) :: events
       /\ entries_chain t events.
Proof.
  unfold iter_unique_path_by_attribute.
  destruct (iter_chronologically locations filter_func key_func)
    as [locs|e]; [|left; reflexivity].
  unfold unique_path.
  destruct (initial geo locs) as [[[a c] t]|e] eqn:Hi; [|left; reflexivity].
  apply initial_Ok in Hi as (_ & _ & Ht).
  pose proof (loop_entries_chain attr locs (loop_indices (length locs))
    {| current_coordinate := None; current_location := None;
       last_coordinate := c; last_location := a |} t Ht) as Hloop.
  destruct (loop geo attr locs _ _) as [events ending]. simpl in *.
  right. exists c, t, events. auto.
Qed.

(** Every tuple a run yields reports, as its next node and timestamp, the
    resolution and the timestamp of an item of the input that the filter
    keeps. *)
Theorem tuples_report_kept_samples {K : Type} `{PyLt K}
    (attr : attribute) (locations : list item)
    (filter_func : item -> bool) (key_func : item -> K) :
  Forall (fun ev => exists it, it ∈ locations
                               /\ filter_func it = true
                               /\ resolve geo it = Ok (next_node ev)
                               /\ timestamp it = Ok (next_timestamp ev))
    (iter_unique_path_by_attribute geo attr locations filter_func key_func).1.
Proof.
  unfold iter_unique_path_by_attribute.
  destruct (iter_chronologically locations filter_func key_func)
    as [locs|e] eqn:E; [|constructor].
  assert (forall it, it ∈ locs -> it ∈ locations /\ filter_func it = true)
    as Hkept.
  { intros it Hit. apply sorted_perm in E. rewrite E in Hit.
    apply elem_of_List_filter. assumption. }
  unfold unique_path.
  destruct (initial geo locs) as [[[a c] t]|e] eqn:Hi; [|constructor].
  apply initial_Ok in Hi as (Ha & Hc & Ht).
  pose proof (loop_reports_samples attr locs (loop_indices (length locs))
    {| current_coordinate := None; current_location := None;
       last_coordinate := c; last_location := a |}) as Hloop.
  destruct (loop geo attr locs _ _) as [events ending]. simpl in *.
  constructor.
  - exists a. destruct (Hkept a) as [Hin Hf];
      [eapply list_elem_of_lookup_2; eassumption | auto].
  - eapply Forall_impl; [exact Hloop|].
    intros ev (it & Hit & Hr & Hts). exists it.
    destruct (Hkept it Hit). auto.
Qed.
End SegmenterInvariants.

(** ** [sorted] is stable *)

Lemma insert_sorted_filter {A K : Type} `{PyLt K} (key_func : A -> K)
    (p : A -> bool) (x : A) (l out : list A) :
  (forall y, y ∈ l -> p x = true -> p y = true ->
     py_lt (key_func y) (key_func x) <> Ok true) ->
  insert_sorted key_func x l = Ok out ->
  List.filter p out = List.filter p (x :: l).
Proof.
  revert out. induction l as [|y l IH]; intros out Hirr; simpl.
  - intros [= <-]. reflexivity.
  - destruct (py_lt (key_func y) (key_func x)) as [[]|] eqn:E; simpl;
      [|intros [= <-]; reflexivity | discriminate].
    destruct (insert_sorted key_func x l) as [r|]; simpl; [|discriminate].
    intros [= <-]. simpl. rewrite (IH r); [|  | reflexivity].
    + simpl. destruct (p x) eqn:Hx; [|reflexivity].
      destruct (p y) eqn:Hy; [|reflexivity].
      exfalso. apply (Hirr y); auto. apply elem_of_cons. auto.
    + intros y' Hy'. apply Hirr. apply elem_of_cons. auto.
Qed.

Lemma sorted_filter {A K : Type} `{PyLt K} (key_func : A -> K)
    (p : A -> bool) (l out : list A) :
  (forall x y, x ∈ l -> y ∈ l -> p x = true -> p y = true ->
     py_lt (key_func y) (key_func x) <> Ok true) ->
  sorted key_func l = Ok out ->
  List.filter p out = List.filter p l.
Proof.
  revert out. induction l as [|x l IH]; intros out Hirr; simpl.
  - intros [= <-]. reflexivity.
  - destruct (sorted key_func l) as [s|] eqn:Es; simpl; [|discriminate].
    intros Hins. pose proof (sorted_perm _ _ _ Es) as Hperm.
    rewrite (insert_sorted_filter key_func p x s out); [| |exact Hins].
    + simpl. rewrite (IH s); [reflexivity | | reflexivity].
      intros a b Ha Hb. apply Hirr; apply elem_of_cons; auto.
    + intros y Hy. rewrite Hperm in Hy.
      apply Hirr; apply elem_of_cons; auto.
Qed.

(** Where [<] orders the keys of the kept records, the chronological
    filter returns them in ascending key order with the records of any one
    sort key in the order in which they were given: the sort is stable. *)
Theorem records_of_one_key_keep_their_order {A K : Type} `{PyLt K}
    `{EqDecision K} (list_object : list A) (filter_func : A -> bool)
    (key_func : A -> K) (k : K) :
  orders key_func (fun a => a ∈ list_object /\ filter_func a = true) ->
  exists out,
    iter_chronologically list_object filter_func key_func = Ok out
    /\ StronglySorted (key_le key_func) out
    /\ List.filter (fun a => bool_decide (key_func a = k)) out
       = List.filter (fun a => bool_decide (key_func a = k))
           (List.filter filter_func list_object).
Proof.
  intros HP.
  destruct (iter_chronologically_ok list_object filter_func key_func _ HP)
    as (out & E & _ & Hs); [auto|].
  exists out. split; [exact E|]. split; [exact Hs|].
  unfold iter_chronologically in E.
  apply (sorted_filter key_func
           (fun a => bool_decide (key_func a = k))) in E; [exact E|].
  intros x y Hx Hy Hkx Hky Hlt.
  apply elem_of_List_filter in Hx, Hy.
  apply bool_decide_eq_true in Hkx, Hky.
  pose proof (orders_asym key_func _ HP y x Hy Hx Hlt) as Hle.
  unfold key_le in Hle. rewrite Hkx, Hky in *. congruence.
Qed.

(** Two samples with the timestamp 200, given FR first, around one with
    the timestamp 100. *)
Lemma records_of_one_key_keep_their_order_witness :
  exists out,
    iter_chronologically
      [in_FR (PInt 200); in_US (PInt 100); in_US (PInt 200)]
      _default_filter_func _default_key_func
    = Ok out
    /\ StronglySorted (key_le _default_key_func) out
    /\ List.filter
         (fun a => bool_decide (_default_key_func a = Some (PInt 200))) out
       = List.filter
           (fun a => bool_decide (_default_key_func a = Some (PInt 200)))
           (List.filter _default_filter_func
              [in_FR (PInt 200); in_US (PInt 100); in_US (PInt 200)]).
Proof.
  apply (records_of_one_key_keep_their_order
           [in_FR (PInt 200); in_US (PInt 100); in_US (PInt 200)]
           _default_filter_func _default_key_func (Some (PInt 200))).
  apply (orders_weaken _ int_timestamp); [|apply orders_default_key_int].
  intros a [Ha Hf].
  repeat (apply elem_of_cons in Ha as [-> | Ha]).
  - exists 200. reflexivity.
  - exists 100. reflexivity.
  - exists 200. reflexivity.
  - apply elem_of_nil in Ha. destruct Ha.
Defined.

(** ** [extract]: from the dataset to the compact rows *)

Lemma compact_row_long (row : list string) :
  (9 <= length row)%nat -> compact_row row = Ok (compact_of row).
Proof.
  intros Hlen. unfold compact_row, compact_of, index_list.
  do 9 (destruct row as [|? row]; [simpl in Hlen; lia|]).
  simpl. destruct (nonempty _ && nonempty _ && nonempty _); reflexivity.
Qed.

Lemma compact_row_short (row : list string) :
  (length row < 9)%nat ->
  compact_row row = Raise (if (length row <? 6)%nat then ValueError
                           else IndexError).
Proof.
  intros Hlen. unfold compact_row, index_list.
  do 9 (destruct row as [|? row]; [reflexivity|]).
  simpl in Hlen. lia.
Qed.

(** When every row of the dataset has nine fields or more, the loop of
    [extract] ends normally and keeps, in the order of the dataset, the
    latitude, longitude, country code and city (fields 4, 5, 8 and 1) of
    exactly the rows whose latitude, longitude and country code are not
    empty; and reading the rows back from what was written gives them
    again. *)
Theorem extract_keeps_the_complete_rows (dataset : list (list string)) :
  Forall (fun row => (9 <= length row)%nat) dataset ->
  compact_rows dataset = Ok (omap compact_of dataset)
  /\ unpack_rows (written (omap compact_of dataset))
     = Ok (omap compact_of dataset)
  /\ Forall (fun r : text_row =>
               r.1.1.1 <> "" /\ r.1.1.2 <> "" /\ r.1.2 <> "")
            (omap compact_of dataset).
Proof.
  intros Hlen. split; [|split].
  - induction Hlen as [|row dataset Hrow _ IH]; [reflexivity|].
    simpl. rewrite (compact_row_long row Hrow). simpl. rewrite IH. simpl.
    destruct (compact_of row); reflexivity.
  - generalize (omap compact_of dataset). intros rows.
    induction rows as [|[[[lat lon] cc] cty] rows IH]; [reflexivity|].
    unfold written in *. cbn [map unpack_rows]. rewrite IH. reflexivity.
  - apply Forall_forall. intros r Hr.
    apply list_elem_of_omap in Hr as (row & _ & Hrow).
    unfold compact_of in Hrow.
    destruct (row !! 4%nat) as [lat|]; [|discriminate].
    destruct (row !! 5%nat) as [lon|]; [|discriminate].
    destruct (row !! 8%nat) as [cc|]; [|discriminate].
    destruct (row !! 1%nat) as [cty|]; [|discriminate].
    destruct lat, lon, cc; simpl in Hrow; try discriminate;
      injection Hrow as <-; simpl; repeat split; discriminate.
Qed.

(** A dataset of three rows: one complete, one without a country code,
    one without a latitude. *)
Lemma extract_keeps_the_complete_rows_witness :
  compact_rows
    [["1"; "Wichita"; "a"; "b"; "38"; "-97"; "c"; "d"; "US"];
     ["2"; "Nowhere"; "a"; "b"; "1"; "2"; "c"; "d"; ""];
     ["3"; "Lost"; "a"; "b"; ""; "2"; "c"; "d"; "FR"; "e"]]
  = Ok [("38", "-97", "US", "Wichita")].
Proof.
  apply (proj1 (extract_keeps_the_complete_rows
                  [["1"; "Wichita"; "a"; "b"; "38"; "-97"; "c"; "d"; "US"];
                   ["2"; "Nowhere"; "a"; "b"; "1"; "2"; "c"; "d"; ""];
                   ["3"; "Lost"; "a"; "b"; ""; "2"; "c"; "d"; "FR"; "e"]]
                  ltac:(repeat constructor; simpl; lia))).
Defined.

(** The first row of the dataset with fewer than nine fields, after rows
    of nine fields or more, ends the loop of [extract]: with [ValueError]
    when it has fewer than six fields, with [IndexError] otherwise. *)
Theorem extract_stops_at_a_short_row (before after : list (list string))
    (row : list string) :
  Forall (fun row => (9 <= length row)%nat) before ->
  (length row < 9)%nat ->
  compact_rows (before ++ row :: after)
  = Raise (if (length row <? 6)%nat then ValueError else IndexError).
Proof.
  intros Hbefore Hrow.
  induction Hbefore as [|r before Hr _ IH]; simpl.
  - rewrite (compact_row_short row Hrow). reflexivity.
  - rewrite (compact_row_long r Hr). simpl. rewrite IH. reflexivity.
Qed.

Lemma extract_stops_at_a_short_row_witness :
  compact_rows
    ([["1"; "Wichita"; "a"; "b"; "38"; "-97"; "c"; "d"; "US"]]
     ++ ["2"; "Short"; "a"; "b"; "1"; "2"; "c"] :: [])
  = Raise IndexError.
Proof.
  apply (extract_stops_at_a_short_row
           [["1"; "Wichita"; "a"; "b"; "38"; "-97"; "c"; "d"; "US"]] []
           ["2"; "Short"; "a"; "b"; "1"; "2"; "c"]).
  - repeat constructor; simpl; lia.
  - simpl. lia.
Defined.

(** ** Uses of the gazetteer: [search] and [Coordinate.reverse] *)

Section GazetteerUse.
Import reverse_geocode.

Lemma base_location_city (r : row) : base_location r !! "city" = Some r.2.
Proof. destruct r as [[[lat lon] cc] cty]. reflexivity. Qed.

Lemma nearest_lt (data : list (Q * Q)) (x : Q * Q) (i : nat) :
  nearest data x = Some i -> (i < length data)%nat.
Proof.
  intros Hi. destruct (nearest_spec data x) as (j & p & Hj & Hp & _).
  - intros ->. discriminate Hi.
  - assert (j = i) as -> by congruence. eapply lookup_lt_Some. eassumption.
Qed.

(** The modelled index answers with positions of its reference points. *)
Lemma cKDTree_answers_within : answers_within cKDTree.
Proof.
  intros data coordinates indices. simpl.
  destruct coordinates as [|c coordinates]; [discriminate|].
  destruct (mapM as_point (c :: coordinates)) as [points|]; [|discriminate].
  destruct (mapM (nearest data) points) as [found|] eqn:Hfound;
    [|discriminate].
  intros [= <-]. apply mapM_Some_1 in Hfound.
  apply Forall_forall. intros i Hi.
  apply list_elem_of_lookup in Hi as [n Hn].
  destruct (Forall2_lookup_r _ _ _ _ _ Hfound Hn) as (x & _ & Hx).
  eapply nearest_lt. eassumption.
Qed.

(** With an index that answers with positions of its reference points,
    [search] never ends with [IndexError] or [KeyError]: when the search of
    the index answers with indices, [search] returns one record per index,
    in their order, each the city and country code of the row at that index
    with the country of the code. *)
Theorem search_answers_with_the_rows
    (KDTree_new : list (Q * Q) -> KDTree)
    (rows : list row) (country_rows : list (string * string))
    (coordinates : list (Q * Q)) (_instance : option GeocodeData)
    (indices : list nat) :
  answers_within KDTree_new ->
  (forall gd, _instance = Some gd ->
     gazetteer_of KDTree_new rows country_rows gd) ->
  kd_query (KDTree_new (extract rows).1)
    (map (fun c => [c.1; c.2]) coordinates)
  = Ok (index_array indices) ->
  exists rs,
    Forall2 (fun i r => rows !! i = Some r) indices rs
    /\ (search KDTree_new rows country_rows coordinates _instance).1
       = Ok ((fun r => with_country (load_countries country_rows ∅)
                         (base_location r)) <$> rs).
Proof.
  intros Hwithin Hinst Hq.
  assert (Forall (fun i => (i < length rows)%nat) indices) as Hlt.
  { pose proof (Hwithin _ _ _ Hq) as H. rewrite extract_rows in H.
    simpl in H. rewrite length_map in H. exact H. }
  assert (gazetteer_of KDTree_new rows country_rows
            (Singleton_call KDTree_new rows country_rows _instance).1) as Hgd.
  { destruct _instance as [gd|]; simpl; [auto | apply gazetteer_of_init]. }
  unfold search.
  destruct (Singleton_call KDTree_new rows country_rows _instance)
    as [gd inst'].
  simpl in Hgd.
  pose proof (query_of_rows KDTree_new rows country_rows gd
                (map (fun c => [c.1; c.2]) coordinates) Hgd) as E.
  destruct (query gd (map (fun c => [c.1; c.2]) coordinates)) as [r gd'].
  cbn [fst] in E |- *. rewrite Hq in E.
  destruct (mapM_is_Some_2 (fun i => rows !! i) indices) as [rs Hrs].
  { eapply Forall_impl; [exact Hlt|].
    intros i Hi. simpl. apply lookup_lt_is_Some_2. assumption. }
  rewrite Hrs in E. exists rs. split; [|exact E].
  apply mapM_Some_1. assumption.
Qed.

(** Bourges, then Wichita. *)
Lemma search_answers_with_the_rows_witness :
  exists rs,
    Forall2 (fun i r => two_cities !! i = Some r) [1%nat; 0%nat] rs
    /\ (search cKDTree two_cities two_countries
          [(47%Q, 2%Q); (38%Q, (-97)%Q)] None).1
       = Ok ((fun r => with_country (load_countries two_countries ∅)
                         (base_location r)) <$> rs).
Proof.
  apply (search_answers_with_the_rows cKDTree two_cities two_countries
           [(47%Q, 2%Q); (38%Q, (-97)%Q)] None [1%nat; 0%nat]).
  - apply cKDTree_answers_within.
  - intros gd Hgd. discriminate Hgd.
  - reflexivity.
Defined.

Lemma init_with_georeverse_answer (KDTree_new : list (Q * Q) -> KDTree)
    (rows : list row) (country_rows : list (string * string))
    (latitude longitude : Q) (_instance : option GeocodeData) :
  (init_with_georeverse KDTree_new rows country_rows latitude longitude
     _instance).1
  = (location <- (reverse_coordinates KDTree_new rows country_rows
                    (latitude, longitude) _instance).1 ;;
     country <- getitem location "country" ;;
     city <- getitem location "city" ;;
     Ok {| latitude := latitude; longitude := longitude;
           city := city; country := country |}).
Proof.
  unfold init_with_georeverse.
  destruct (reverse_coordinates _ _ _ _ _) as [r inst']. reflexivity.
Qed.

(** With an index that answers with a nearest reference point, on a
    gazetteer of at least one row, [Coordinate.init_with_georeverse] returns
    a coordinate with the latitude and longitude it was given, the city of
    a row that no other row is nearer than, and the country the table gives
    for the code of that row (the empty string when it gives none). *)
Theorem resolves_to_a_nearest_row (KDTree_new : list (Q * Q) -> KDTree)
    (rows : list row) (country_rows : list (string * string))
    (latitude longitude : Q) (_instance : option GeocodeData) :
  nearest_neighbour KDTree_new ->
  rows <> [] ->
  (forall gd, _instance = Some gd ->
     gazetteer_of KDTree_new rows country_rows gd) ->
  exists r,
    r ∈ rows
    /\ (forall r', r' ∈ rows ->
          (dist2 (row_coordinates r) (latitude, longitude)
           <= dist2 (row_coordinates r') (latitude, longitude))%Q)
    /\ (init_with_georeverse KDTree_new rows country_rows latitude longitude
          _instance).1
       = Ok {| latitude := latitude; longitude := longitude;
               city := r.2;
               country := default ""
                            (load_countries country_rows ∅ !! r.1.2) |}.
Proof.
  intros Hnn Hrows Hinst.
  destruct (reverse_coordinates_nearest KDTree_new rows country_rows
              (latitude, longitude) _instance Hnn Hrows Hinst)
    as (i & r & Hr & Hmin & E).
  exists r. split; [eapply list_elem_of_lookup_2; eassumption|].
  split; [exact Hmin|].
  rewrite init_with_georeverse_answer, E. simpl.
  unfold getitem. rewrite with_country_base, lookup_insert_eq. simpl.
  rewrite lookup_insert_ne by discriminate.
  rewrite base_location_city. reflexivity.
Qed.

(** A place half-way up France, with the modelled index. *)
Lemma resolves_to_a_nearest_row_witness :
  exists r,
    r ∈ two_cities
    /\ (forall r', r' ∈ two_cities ->
          (dist2 (row_coordinates r) (46%Q, 3%Q)
           <= dist2 (row_coordinates r') (46%Q, 3%Q))%Q)
    /\ (init_with_georeverse cKDTree two_cities two_countries 46%Q 3%Q
          None).1
       = Ok {| latitude := 46%Q; longitude := 3%Q;
               city := r.2;
               country := default ""
                            (load_countries two_countries ∅ !! r.1.2) |}.
Proof.
  apply (resolves_to_a_nearest_row cKDTree two_cities two_countries
           46%Q 3%Q None).
  - apply cKDTree_nearest_neighbour.
  - discriminate.
  - intros gd Hgd. discriminate Hgd.
Defined.

(** When the search of the index raises, [Coordinate.init_with_georeverse]
    ends with [ValueError]; when it answers with a bare [int], the empty
    record [query] returns has no ["country"], and
    [Coordinate.init_with_georeverse] ends with [KeyError].  The gazetteer
    is left as it was. *)
Theorem resolution_fails_without_indices
    (KDTree_new : list (Q * Q) -> KDTree)
    (rows : list row) (country_rows : list (string * string))
    (latitude longitude : Q) (gd : GeocodeData) :
  (forall e, kd_query (tree gd) [[latitude; longitude]] = Raise e ->
     init_with_georeverse KDTree_new rows country_rows latitude longitude
       (Some gd)
     = (Raise ValueError, Some gd))
  /\ (forall index,
        kd_query (tree gd) [[latitude; longitude]] = Ok (int_index index) ->
        init_with_georeverse KDTree_new rows country_rows latitude longitude
          (Some gd)
        = (Raise KeyError, Some gd)).
Proof.
  split.
  - intros e He. unfold init_with_georeverse, reverse_coordinates. simpl.
    rewrite (query_search_raises gd _ e He). reflexivity.
  - intros index Hi. unfold init_with_georeverse, reverse_coordinates. simpl.
    rewrite (query_int_index gd _ index Hi). reflexivity.
Qed.

Lemma resolution_fails_without_indices_witness :
  init_with_georeverse cKDTree origin_rows origin_countries 0%Q 0%Q
    (Some {| tree := bare_int_index;
             locations := locations origin_gazetteer;
             countries := countries origin_gazetteer |})
  = (Raise KeyError,
     Some {| tree := bare_int_index;
             locations := locations origin_gazetteer;
             countries := countries origin_gazetteer |}).
Proof.
  apply (proj2 (resolution_fails_without_indices cKDTree origin_rows
                  origin_countries 0%Q 0%Q
                  {| tree := bare_int_index;
                     locations := locations origin_gazetteer;
                     countries := countries origin_gazetteer |}) 0%nat).
  reflexivity.
Defined.
End GazetteerUse.

(** ** The places a run leaves *)

Section SegmenterPlaces.
Variable geo : Q -> Q -> result Coordinate.

(** Once the loop holds a current coordinate that agrees with the place
    entered last, every exit it yields follows the entry before it. *)
Lemma loop_exits_follow_entries (attr : attribute) (locs : list item)
    (indices : list nat) (st : loop_state) (c entered : Coordinate) :
  current_coordinate st = Some c ->
  getattr c attr = getattr entered attr ->
  exits_follow_entries attr entered (loop geo attr locs indices st).1.
Proof.
  revert st c entered.
  induction indices as [|index indices IH]; intros st c entered Hc Hsame;
    simpl; [exact I|].
  destruct (loop_body geo attr locs index st) as [[yielded st']|e] eqn:Hb;
    [|exact I].
  apply loop_body_Ok in Hb
    as (cur & nl & next & Hcur & _ & _ & Hc'
        & [(Heq & -> & _) | (_ & tl & tn & _ & _ & -> & _)]).
  - assert (cur = c) as ->.
    { destruct Hcur as [Hcur | [Hcur _]]; congruence. }
    apply String.eqb_eq in Heq.
    specialize (IH st' next entered Hc').
    destruct (loop geo attr locs indices st') as [events ending].
    simpl in *. apply IH. congruence.
  - assert (cur = c) as ->.
    { destruct Hcur as [Hcur | [Hcur _]]; congruence. }
    specialize (IH st' next next Hc' eq_refl).
    destruct (loop geo attr locs indices st') as [events ending].
    simpl in *. split; [exact Hsame | exact IH].
Qed.

Lemma loop_exits_after_the_first (attr : attribute) (locs : list item)
    (indices : list nat) (st : loop_state) :
  match (loop geo attr locs indices st).1 with
  | first :: events => exits_follow_entries attr (next_node first) events
  | [] => True
  end.
Proof.
  revert st. induction indices as [|index indices IH]; intros st; simpl;
    [exact I|].
  destruct (loop_body geo attr locs index st) as [[yielded st']|e] eqn:Hb;
    [|exact I].
  apply loop_body_Ok in Hb
    as (cur & nl & next & _ & _ & _ & Hc'
        & [(_ & -> & _) | (_ & tl & tn & _ & _ & -> & _)]).
  - specialize (IH st').
    destruct (loop geo attr locs indices st') as [events ending]. exact IH.
  - pose proof (loop_exits_follow_entries attr locs indices st' next next
                  Hc' eq_refl) as Hloop.
    destruct (loop geo attr locs indices st') as [events ending].
    exact Hloop.
Qed.

(** From the second transition on, the place a tuple leaves agrees, in the
    watched attribute, with the place the tuple before it entered: whatever
    the input and however the run ends, the tuples after the initial tuple
    and the first transition satisfy [exits_follow_entries].  (The first
    transition is left out: the place it leaves is not compared with the
    place of the initial tuple.) *)
Theorem later_exits_follow_entries {K : Type} `{PyLt K}
    (attr : attribute) (locations : list item)
    (filter_func : item -> bool) (key_func : item -> K) :
  match (iter_unique_path_by_attribute geo attr locations filter_func
           key_func).1 with
  | _ :: first :: events =>
      exits_follow_entries attr (next_node first) events
  | _ => True
  end.
Proof.
  unfold iter_unique_path_by_attribute.
  destruct (iter_chronologically locations filter_func key_func)
    as [locs|e]; [|exact I].
  unfold unique_path.
  destruct (initial geo locs) as [[[a c] t]|e]; [|exact I].
  pose proof (loop_exits_after_the_first attr locs
    (loop_indices (length locs))
    {| current_coordinate := None; current_location := None;
       last_coordinate := c; last_location := a |}) as Hloop.
  destruct (loop geo attr locs _ _) as [events ending]. simpl in *.
  exact Hloop.
Qed.

(** *** The run between two dates *)

Lemma unique_path_reports_samples (attr : attribute) (locs : list item) :
  Forall (fun ev => exists it, it ∈ locs
                               /\ resolve geo it = Ok (next_node ev)
                               /\ timestamp it = Ok (next_timestamp ev))
         (unique_path geo attr locs).1.
Proof.
  unfold unique_path.
  destruct (initial geo locs) as [[[a c] t]|e] eqn:Hi; [|constructor].
  apply initial_Ok in Hi as (Ha & Hc & Ht).
  pose proof (loop_reports_samples geo attr locs (loop_indices (length locs))
    {| current_coordinate := None; current_location := None;
       last_coordinate := c; last_location := a |}) as Hloop.
  destruct (loop geo attr locs _ _) as [events ending]. simpl in *.
  constructor; [|assumption].
  exists a. split; [eapply list_elem_of_lookup_2; eassumption | auto].
Qed.
End SegmenterPlaces.

Lemma filter_raising_Ok {A : Type} (filter_func : A -> result bool)
    (l kept : list A) :
  filter_raising filter_func l = Ok kept ->
  forall x, x ∈ kept <-> x ∈ l /\ filter_func x = Ok true.
Proof.
  revert kept. induction l as [|y l IH]; intros kept; simpl.
  - intros [= <-] x. split; [intros Hx | intros [Hx _]];
      apply elem_of_nil in Hx; destruct Hx.
  - destruct (filter_func y) as [keep|] eqn:Hy; simpl; [|discriminate].
    destruct (filter_raising filter_func l) as [kept'|]; simpl;
      [|discriminate].
    intros [= <-] x. specialize (IH kept' eq_refl x).
    rewrite elem_of_cons. destruct keep.
    + rewrite elem_of_cons, IH. split.
      * intros [-> | [Hx Hf]]; auto.
      * intros [[-> | Hx] Hf]; auto.
    + rewrite IH. split.
      * intros [Hx Hf]; auto.
      * intros [[-> | Hx] Hf]; [congruence | auto].
Qed.

(** On a predicate that never raises, the reading is [filter]. *)
Lemma filter_raising_pure {A : Type} (filter_func : A -> result bool)
    (pure : A -> bool) (l : list A) :
  (forall x, x ∈ l -> filter_func x = Ok (pure x)) ->
  filter_raising filter_func l = Ok (List.filter pure l).
Proof.
  induction l as [|y l IH]; intros Hpure; simpl; [reflexivity|].
  rewrite (Hpure y) by (apply elem_of_cons; auto). simpl.
  rewrite IH by (intros x Hx; apply Hpure, elem_of_cons; auto). simpl.
  destruct (pure y); reflexivity.
Qed.

Lemma filter_raising_Raise {A : Type} (filter_func : A -> result bool)
    (l : list A) (x : A) (e : exn) :
  x ∈ l -> filter_func x = Raise e ->
  exists y e', y ∈ l /\ filter_func y = Raise e'
               /\ filter_raising filter_func l = Raise e'.
Proof.
  induction l as [|y l IH]; intros Hx Hf.
  - apply elem_of_nil in Hx. destruct Hx.
  - simpl. destruct (filter_func y) as [keep|e'] eqn:Hy; simpl.
    + apply elem_of_cons in Hx as [-> | Hx]; [congruence|].
      destruct (IH Hx Hf) as (z & e' & Hz & Hfz & ->). simpl.
      exists z, e'. rewrite elem_of_cons. auto.
    + exists y, e'. rewrite elem_of_cons. auto.
Qed.

Lemma py_int_Raise (v : pyval) (e : exn) :
  py_int v = Raise e -> e = ValueError.
Proof.
  destruct v as [z|s]; simpl; [discriminate|].
  unfold int_of_string.
  destruct (match lstrip s with
            | String "-" s' => option_map Z.opp (int_digits s' 0 false)
            | String "+" s' => int_digits s' 0 false
            | s' => int_digits s' 0 false
            end); congruence.
Qed.

Lemma _new_filter_Raise (date1Ms date2Ms : Q) (it : item) (e : exn) :
  _new_filter date1Ms date2Ms it = Raise e -> e = ValueError.
Proof.
  unfold _new_filter.
  destruct (py_int (default (PInt 0) (it !! "timestampMs"))) as [z|e']
    eqn:Hz; simpl.
  - destruct ((z =? 0) || negb (Qle_bool (inject_Z z) date2Ms)
              || negb (Qle_bool date1Ms (inject_Z z))); discriminate.
  - intros [= <-]. eapply py_int_Raise. eassumption.
Qed.

(** What [_new_filter] accepts. *)
Lemma _new_filter_true (date1Ms date2Ms : Q) (it : item) :
  _new_filter date1Ms date2Ms it = Ok true ->
  exists value,
    timestamp it = Ok value
    /\ value <> 0
    /\ (date1Ms <= inject_Z value)%Q /\ (inject_Z value <= date2Ms)%Q.
Proof.
  unfold _new_filter, timestamp, getitem.
  destruct (it !! "timestampMs") as [v|]; simpl.
  - destruct (py_int v) as [z|e]; simpl; [|discriminate].
    destruct (z =? 0) eqn:Hz; simpl; [discriminate|].
    destruct (Qle_bool (inject_Z z) date2Ms) eqn:H2; simpl; [|discriminate].
    destruct (Qle_bool date1Ms (inject_Z z)) eqn:H1; simpl; [|discriminate].
    intros _. exists z. apply Z.eqb_neq in Hz.
    apply Qle_bool_iff in H1, H2. auto.
  - discriminate.
Qed.

(** Every tuple the run between two dates yields reports a timestamp that
    is not zero and lies between the two dates, bounds included. *)
Theorem dated_tuples_lie_between_the_dates
    (geo : Q -> Q -> result Coordinate) (date1Ms date2Ms : Q)
    (locations : list item) :
  Forall (fun ev => next_timestamp ev <> 0
                    /\ (date1Ms <= inject_Z (next_timestamp ev))%Q
                    /\ (inject_Z (next_timestamp ev) <= date2Ms)%Q)
    (dated_country_path geo date1Ms date2Ms locations).1.
Proof.
  unfold dated_country_path, iter_unique_path_by_attribute_raising,
    iter_chronologically_raising.
  destruct (filter_raising (_new_filter date1Ms date2Ms) locations)
    as [kept|e] eqn:Hkept; simpl; [|constructor].
  destruct (sorted _default_key_func kept) as [locs|e] eqn:Hs;
    [|constructor].
  apply sorted_perm in Hs.
  eapply Forall_impl; [apply unique_path_reports_samples|].
  intros ev (it & Hit & _ & Ht). simpl.
  rewrite Hs in Hit.
  apply (filter_raising_Ok _ _ _ Hkept) in Hit as [_ Hf].
  apply _new_filter_true in Hf as (value & Hv & H0 & H1 & H2).
  assert (value = next_timestamp ev) as <- by congruence. auto.
Qed.

(** One item whose [timestampMs] is a string that [int] does not read
    ends the run between two dates with [ValueError] before anything is
    yielded, wherever the item stands in the input. *)
Theorem unreadable_timestamp_ends_the_dated_run
    (geo : Q -> Q -> result Coordinate) (date1Ms date2Ms : Q)
    (locations : list item) (it : item) (s : string) (e : exn) :
  it ∈ locations ->
  it !! "timestampMs" = Some (PStr s) ->
  int_of_string s = Raise e ->
  dated_country_path geo date1Ms date2Ms locations = ([], Some ValueError).
Proof.
  intros Hit Hs He.
  assert (_new_filter date1Ms date2Ms it = Raise e) as Hf.
  { unfold _new_filter. rewrite Hs. simpl. rewrite He. reflexivity. }
  destruct (filter_raising_Raise _ _ _ _ Hit Hf) as (y & e' & _ & Hy & E).
  apply _new_filter_Raise in Hy as ->.
  unfold dated_country_path, iter_unique_path_by_attribute_raising,
    iter_chronologically_raising.
  rewrite E. reflexivity.
Qed.

(** The unreadable item comes last, after an item within the dates. *)
Lemma unreadable_timestamp_ends_the_dated_run_witness :
  dated_country_path near_two_cities 0%Q 1000%Q
    [in_US (PInt 100); in_FR (PStr "soon")]
  = ([], Some ValueError).
Proof.
  apply (unreadable_timestamp_ends_the_dated_run near_two_cities 0%Q 1000%Q
           [in_US (PInt 100); in_FR (PStr "soon")] (in_FR (PStr "soon"))
           "soon" ValueError).
  - apply elem_of_cons. right. apply elem_of_cons. left. reflexivity.
  - reflexivity.
  - reflexivity.
Defined.

(** ** The address the remote geocoder answers *)

Lemma split_comma_length (s : string) :
  length (split_comma s) = S (count_commas s).
Proof.
  induction s as [|c s IH]; simpl; [reflexivity|].
  destruct (Ascii.eqb c ","); simpl; [congruence|].
  destruct (split_comma s) as [|part parts]; simpl in *; congruence.
Qed.

Lemma split_comma_no_comma (s : string) :
  Forall (fun part => no_comma part = true) (split_comma s).
Proof.
  induction s as [|c s IH]; simpl.
  - repeat constructor.
  - destruct (Ascii.eqb c ",") eqn:Hc.
    + constructor; [reflexivity | assumption].
    + destruct (split_comma s) as [|part parts].
      * repeat constructor. simpl. rewrite Hc. reflexivity.
      * apply Forall_cons in IH as [Hp Hps]. constructor; [|assumption].
        simpl. rewrite Hc, Hp. reflexivity.
Qed.

Lemma lstrip_space_no_comma (s : string) :
  no_comma s = true -> no_comma (lstrip_space s) = true.
Proof.
  induction s as [|c s IH]; simpl; [auto|].
  intros Hs. apply andb_true_iff in Hs as [Hc Hs].
  destruct (Ascii.eqb c " "); [auto|]. simpl. rewrite Hc, Hs. reflexivity.
Qed.

Lemma rstrip_space_no_comma (s : string) :
  no_comma s = true -> no_comma (rstrip_space s) = true.
Proof.
  induction s as [|c s IH]; simpl; [auto|].
  intros Hs. apply andb_true_iff in Hs as [Hc Hs]. specialize (IH Hs).
  destruct (rstrip_space s) as [|c' r].
  - destruct (Ascii.eqb c " "); simpl; [reflexivity|].
    rewrite Hc. reflexivity.
  - simpl in *. rewrite Hc, IH. reflexivity.
Qed.

Lemma strip_space_no_comma (s : string) :
  no_comma s = true -> no_comma (strip_space s) = true.
Proof.
  intros Hs. apply rstrip_space_no_comma, lstrip_space_no_comma, Hs.
Qed.

Lemma index_last_Ok {A : Type} (l : list A) :
  l <> [] -> exists x, index_last l = Ok x /\ last l = Some x.
Proof.
  intros Hl. destruct l as [|a l]; [contradiction|].
  unfold index_last, index_list. rewrite last_lookup.
  cbn [length Nat.pred].
  destruct ((a :: l) !! length l) as [x|] eqn:Hx.
  - eauto.
  - apply lookup_ge_None in Hx. simpl in Hx. lia.
Qed.

(** On every address, the geopy branch of [Coordinate.reverse] reads the
    country without raising: the country holds no comma, the city is a list
    of parts that hold no comma, and the list has as many parts as the
    address has commas, less two (none for an address of fewer than three
    commas). *)
Theorem reverse_address_returns (address : string) :
  exists country city,
    reverse_address address = Ok (country, city)
    /\ no_comma country = true
    /\ Forall (fun part => no_comma part = true) city
    /\ length city = (count_commas address - 2)%nat.
Proof.
  unfold reverse_address.
  pose proof (split_comma_length address) as Hlen.
  pose proof (split_comma_no_comma address) as Hno.
  set (location_split := map strip_space (split_comma address)).
  assert (Forall (fun part => no_comma part = true) location_split) as Hall.
  { subst location_split. apply Forall_map.
    eapply Forall_impl; [exact Hno|].
    intros part Hp. simpl. apply strip_space_no_comma, Hp. }
  assert (length location_split = S (count_commas address)) as Hlen'.
  { subst location_split. rewrite length_map. exact Hlen. }
  destruct (index_last_Ok location_split) as (country & Hc & Hlast).
  { intros E. rewrite E in Hlen'. discriminate. }
  cbv zeta. fold location_split. rewrite Hc. simpl. exists country, (drop 1 (take (length location_split - 2)
                                    location_split)).
  split; [reflexivity|]. split; [|split].
  - rewrite Forall_forall in Hall. apply Hall.
    apply last_Some in Hlast as [l' ->]. apply elem_of_app. right.
    apply elem_of_cons. auto.
  - apply Forall_drop, Forall_take, Hall.
  - rewrite length_drop, length_take, Hlen'. lia.
Qed.

Lemma split_comma_part (part : string) :
  no_comma part = true -> split_comma part = [part].
Proof.
  induction part as [|c part IH]; simpl; [reflexivity|].
  intros Hp. apply andb_true_iff in Hp as [Hc Hp].
  apply negb_true_iff in Hc. rewrite Hc, (IH Hp). reflexivity.
Qed.

Lemma split_comma_app (part rest : string) :
  no_comma part = true ->
  split_comma (part ++ String "," rest)%string = part :: split_comma rest.
Proof.
  induction part as [|c part IH]; simpl; [reflexivity|].
  intros Hp. apply andb_true_iff in Hp as [Hc Hp].
  apply negb_true_iff in Hc. rewrite Hc, (IH Hp). reflexivity.
Qed.

Lemma split_comma_joined (part : string) (parts : list string) :
  Forall (fun p => no_comma p = true) (part :: parts) ->
  split_comma (joined (part :: parts)) = part :: map (String " ") parts.
Proof.
  revert part. induction parts as [|q parts IH]; intros part Hall.
  - apply Forall_cons in Hall as [Hp _]. simpl.
    apply split_comma_part, Hp.
  - apply Forall_cons in Hall as [Hp Hall].
    change (joined (part :: q :: parts))
      with (part ++ String "," (String " " (joined (q :: parts))))%string.
    rewrite (split_comma_app _ _ Hp).
    change (split_comma (String " " (joined (q :: parts))))
      with (match split_comma (joined (q :: parts)) with
            | p :: ps => String " " p :: ps
            | [] => [String " " EmptyString]
            end).
    rewrite (IH q Hall). reflexivity.
Qed.

Lemma strip_space_joined (parts : list string) :
  Forall address_part parts ->
  map strip_space (map (String " ") parts) = parts.
Proof.
  induction 1 as [|p parts [_ Hp] _ IH]; simpl; [reflexivity|].
  rewrite IH. f_equal. exact Hp.
Qed.

(** For an address made of parts joined with [", "], the parts free of
    commas and of spaces at their ends, the geopy branch of
    [Coordinate.reverse] takes the last part as the country and, as the
    city, the list of the parts from the second up to the one before the
    last two: the empty list when the address has three parts or fewer. *)
Theorem reverse_address_of_joined_parts (parts : list string) :
  parts <> [] ->
  Forall address_part parts ->
  reverse_address (joined parts)
  = Ok (default EmptyString (last parts),
        drop 1 (take (length parts - 2) parts)).
Proof.
  intros Hne Hall. destruct parts as [|part parts]; [contradiction|].
  unfold reverse_address.
  rewrite split_comma_joined
    by (eapply Forall_impl; [exact Hall | intros p [Hp _]; exact Hp]).
  pose proof Hall as Hall'. apply Forall_cons in Hall' as [[_ Hp] Hps].
  cbn [map]. rewrite Hp, (strip_space_joined _ Hps).
  destruct (index_last_Ok (part :: parts)) as (country & Hc & Hlast);
    [discriminate|].
  cbv zeta. rewrite Hc, Hlast. reflexivity.
Qed.

(** An address of five parts. *)
Lemma reverse_address_of_joined_parts_witness :
  reverse_address
    (joined ["10"; "Downing Street"; "London"; "England"; "United Kingdom"])
  = Ok (default EmptyString
          (last ["10"; "Downing Street"; "London"; "England";
                 "United Kingdom"]),
        drop 1 (take (length ["10"; "Downing Street"; "London"; "England";
                              "United Kingdom"] - 2)
                  ["10"; "Downing Street"; "London"; "England";
                   "United Kingdom"])).
Proof.
  apply (reverse_address_of_joined_parts
           ["10"; "Downing Street"; "London"; "England"; "United Kingdom"]).
  - discriminate.
  - repeat constructor.
Defined.

(** ** The run between two dates and the run without dates *)

Lemma filter_filter_andb {A : Type} (f g : A -> bool) (l : list A) :
  List.filter f (List.filter g l) = List.filter (fun x => g x && f x) l.
Proof.
  induction l as [|x l IH]; simpl; [reflexivity|].
  destruct (g x); simpl; [|exact IH].
  destruct (f x); simpl; rewrite IH; reflexivity.
Qed.

Lemma _new_filter_int (date1Ms date2Ms : Q) (it : item) :
  it !! "timestampMs" = None \/ int_timestamp it ->
  _new_filter date1Ms date2Ms it
  = Ok (within_dates date1Ms date2Ms it && _default_filter_func it).
Proof.
  unfold _new_filter, within_dates, _default_filter_func.
  intros [-> | [z ->]]; simpl; [reflexivity|].
  destruct (z =? 0); simpl.
  - rewrite andb_false_r. reflexivity.
  - rewrite andb_true_r.
    destruct (Qle_bool (inject_Z z) date2Ms), (Qle_bool date1Ms (inject_Z z));
      reflexivity.
Qed.

(** When every item of the input has an int [timestampMs] or none, the
    run between two dates is the run without dates (default filter and
    key) on the items of the input whose timestamp lies between the
    dates: the same tuples and the same ending. *)
Theorem dated_run_is_the_run_on_the_items_within_the_dates
    (geo : Q -> Q -> result Coordinate) (date1Ms date2Ms : Q)
    (locations : list item) :
  Forall (fun it => it !! "timestampMs" = None \/ int_timestamp it)
    locations ->
  dated_country_path geo date1Ms date2Ms locations
  = iter_unique_country_path geo
      (List.filter (within_dates date1Ms date2Ms) locations)
      _default_filter_func _default_key_func.
Proof.
  intros Hint.
  unfold dated_country_path, iter_unique_path_by_attribute_raising,
    iter_chronologically_raising, iter_unique_country_path,
    iter_unique_path_by_attribute, iter_chronologically.
  rewrite (filter_raising_pure (_new_filter date1Ms date2Ms)
             (fun it => within_dates date1Ms date2Ms it
                        && _default_filter_func it)).
  - rewrite filter_filter_andb. reflexivity.
  - intros it Hit. rewrite Forall_forall in Hint.
    apply _new_filter_int, Hint, Hit.
Qed.

(** Five samples, the first before the start date and the last after the
    end date. *)
Lemma dated_run_is_the_run_on_the_items_within_the_dates_witness :
  dated_country_path near_two_cities 150%Q 450%Q
    [in_US (PInt 100); in_FR (PInt 200); in_US (PInt 300);
     in_FR (PInt 400); in_US (PInt 500)]
  = iter_unique_country_path near_two_cities
      (List.filter (within_dates 150%Q 450%Q)
         [in_US (PInt 100); in_FR (PInt 200); in_US (PInt 300);
          in_FR (PInt 400); in_US (PInt 500)])
      _default_filter_func _default_key_func.
Proof.
  apply (dated_run_is_the_run_on_the_items_within_the_dates near_two_cities
           150%Q 450%Q
           [in_US (PInt 100); in_FR (PInt 200); in_US (PInt 300);
            in_FR (PInt 400); in_US (PInt 500)]).
  repeat (apply List.Forall_cons; [right; eexists; reflexivity|]).
  apply List.Forall_nil.
Defined.
